(** * MemoryPoolManager: a fixed-block memory pool and its typed wrapper

    Shallow embedding of [main.cpp]: the class [MemoryPool] (a
    [vector<void*>] of free blocks obtained from [malloc]), the adapter
    [PoolAllocator<T>], the factory [make_unique_pool<T>] with its deleter,
    [PoolManager], and the [constexpr] function [factorial].

    C++ methods mutate the object they are called on and may throw, so each
    method is a computation in a state-and-exception monad [M S A]: from a
    state it either returns a value with the new state, throws an exception
    with the state reached at the throw, or has undefined behaviour. *)

From Stdlib Require Import List NArith PArith ZArith Bool Arith Lia Permutation.
Import ListNotations.

Set Implicit Arguments.

(** ** Pointers and exceptions *)

(** [void*]: an address, [nullptr] being address zero. *)
Definition ptr := N.
Definition nullptr : ptr := 0%N.

(** The exceptions that travel through this program: [std::bad_alloc],
    [std::length_error] (from [vector::reserve]) and whatever a user type's
    constructor throws, identified by a code. *)
Inductive exn : Type :=
| bad_alloc
| length_error
| ctor_failure (code : nat).

(** ** The state-and-exception monad *)

Inductive outcome (S A : Type) : Type :=
| Ok (a : A) (s : S)
| Throw (e : exn) (s : S)
| Undefined.

Arguments Ok {S A} a s.
Arguments Throw {S A} e s.
Arguments Undefined {S A}.

Definition M (S A : Type) : Type := S -> outcome S A.

Definition ret {S A} (a : A) : M S A := fun s => Ok a s.

Definition bind {S A B} (m : M S A) (k : A -> M S B) : M S B :=
  fun s =>
    match m s with
    | Ok a s' => k a s'
    | Throw e s' => Throw e s'
    | Undefined => Undefined
    end.

Definition throw {S A} (e : exn) : M S A := fun s => Throw e s.

Definition undefined_behaviour {S A} : M S A := fun _ => Undefined.

Definition get_state {S} : M S S := fun s => Ok s s.

Definition modify {S} (f : S -> S) : M S unit := fun s => Ok tt (f s).

Declare Scope cpp_scope.
Delimit Scope cpp_scope with cpp.
Notation "x <- m ;; k" := (bind m (fun x => k))
  (at level 61, m at next level, right associativity) : cpp_scope.
Notation "m ;; k" := (bind m (fun _ => k))
  (at level 61, right associativity) : cpp_scope.
Local Open Scope cpp_scope.

(** Running a computation on a component of a larger state. *)
Definition zoom {S1 S2 A} (proj : S2 -> S1) (upd : S1 -> S2 -> S2)
    (m : M S1 A) : M S2 A :=
  fun s =>
    match m (proj s) with
    | Ok a s1 => Ok a (upd s1 s)
    | Throw e s1 => Throw e (upd s1 s)
    | Undefined => Undefined
    end.

(** ** The system allocator

    [malloc], [free] and [operator new] are the environment of the program.
    The heap hands out fresh, increasing addresses; [script] decides which
    of the coming requests are refused (an exhausted script refuses
    nothing), so quantifying over heaps covers every behaviour of the
    allocator. [live] holds the blocks obtained from [malloc] and not yet
    passed to [free]. *)

Record Heap : Type := mkHeap {
  live : list ptr;
  brk : positive;
  script : list bool
}.

Definition refused (h : Heap) : bool :=
  match script h with
  | false :: _ => true
  | _ => false
  end.

(** [malloc(size)]: a null pointer when the request is refused, a fresh
    non-null address otherwise. *)
Definition malloc (size : N) (h : Heap) : ptr * Heap :=
  if refused h then
    (nullptr, mkHeap (live h) (brk h) (tl (script h)))
  else
    (Npos (brk h),
     mkHeap (Npos (brk h) :: live h) (brk h + N.succ_pos size) (tl (script h))).

(** [free(p)]: nothing for a null pointer; a live block is released;
    anything else (a block already released, an address [malloc] never
    returned) is undefined. *)
Definition free (p : ptr) : M Heap unit :=
  fun h =>
    if N.eqb p nullptr then Ok tt h
    else if existsb (N.eqb p) (live h) then
      Ok tt (mkHeap (remove N.eq_dec p (live h)) (brk h) (script h))
    else Undefined.

(** [operator new(size)], through which [vector] obtains its buffer:
    throws [bad_alloc] when refused. The buffer is not a pool block and is
    not recorded in [live]. *)
Definition operator_new (size : N) : M Heap ptr :=
  fun h =>
    if refused h then
      Throw bad_alloc (mkHeap (live h) (brk h) (tl (script h)))
    else
      Ok (Npos (brk h))
         (mkHeap (live h) (brk h + N.succ_pos size) (tl (script h))).

(** [vector<void*>::max_size()] and [sizeof(void* )] on an LP64 target. *)
Definition sizeof_ptr : N := 8.
Definition vector_max_size : N := 2 ^ 60 - 1.

(** [blocks.reserve(capacity)] on the empty vector just constructed:
    nothing to do for zero, [length_error] beyond [max_size], otherwise one
    buffer from [operator new]. *)
Definition vector_reserve (capacity : N) : M Heap unit :=
  if N.eqb capacity 0 then ret tt
  else if N.ltb vector_max_size capacity then throw length_error
  else _ <- operator_new (capacity * sizeof_ptr) ;; ret tt.

(** ** class MemoryPool *)

(** [blocks] is the [vector<void*>] in index order: [push_back] appends at
    the end, [back] is the last element. *)
Record MemoryPool : Type := mkPool {
  blocks : list ptr;
  blockSize : N;
  capacity : N
}.

Definition set_blocks (l : list ptr) (p : MemoryPool) : MemoryPool :=
  mkPool l (blockSize p) (capacity p).

Definition push_back (x : ptr) (l : list ptr) : list ptr := l ++ [x].
Definition back (l : list ptr) : ptr := last l nullptr.
Definition pop_back (l : list ptr) : list ptr := removelast l.
Definition empty (l : list ptr) : bool :=
  match l with [] => true | _ => false end.

(** The constructor's loop, [n] iterations left:
    [blocks.push_back(malloc(blockSize))]. *)
Fixpoint MemoryPool_fill (n : nat) (size : N) (l : list ptr) (h : Heap)
  : list ptr * Heap :=
  match n with
  | O => (l, h)
  | S n' =>
      let (b, h') := malloc size h in
      MemoryPool_fill n' size (push_back b l) h'
  end.

(** [MemoryPool(size_t blockSize, size_t capacity)]. *)
Definition MemoryPool_ctor (blockSize capacity : N) : M Heap MemoryPool :=
  _ <- vector_reserve capacity ;;
  fun h =>
    let (l, h') := MemoryPool_fill (N.to_nat capacity) blockSize [] h in
    Ok (mkPool l blockSize capacity) h'.

(** The destructor's loop: [free(block)] for every element, first to
    last. *)
Fixpoint MemoryPool_release (l : list ptr) : M Heap unit :=
  match l with
  | [] => ret tt
  | block :: l' => free block ;; MemoryPool_release l'
  end.

(** [~MemoryPool()]: [free] on every element of [blocks]. *)
Definition MemoryPool_dtor (p : MemoryPool) : M Heap unit :=
  MemoryPool_release (blocks p).

(** [void* allocate()]. *)
Definition MemoryPool_allocate : M MemoryPool ptr :=
  fun p =>
    if empty (blocks p) then Throw bad_alloc p
    else
      let block := back (blocks p) in
      Ok block (set_blocks (pop_back (blocks p)) p).

(** [void deallocate(void* block)]: [blocks.push_back(block)]. The
    constructor reserved room for [capacity] entries, so a push on a free
    list that holds fewer is stored in place and cannot fail. This is the
    push that is followed here. On a list that already fills the reserved
    room, [push_back] first asks [operator new] for a larger buffer and
    throws [bad_alloc] when refused; that depends on the allocator, which
    is not part of the pool, and facts about [deallocate] are stated for
    pushes within the reserved room ([within_reserved]), or for a push
    that follows a pop. *)
Definition MemoryPool_deallocate (block : ptr) : M MemoryPool unit :=
  modify (fun p => set_blocks (push_back block (blocks p)) p).

(** [bool hasAvailableMemory() const]. *)
Definition MemoryPool_hasAvailableMemory : M MemoryPool bool :=
  fun p => Ok (negb (empty (blocks p))) p.

(** The number of blocks the pool can still hand out. *)
Definition available (p : MemoryPool) : nat := length (blocks p).

(** ** class PoolAllocator<T> *)

(** [T* allocate(size_t n)] as in [main.cpp]. *)
Definition PoolAllocator_allocate (n : N) : M MemoryPool ptr :=
  if N.eqb n 0 then ret nullptr
  else
    has <- MemoryPool_hasAvailableMemory ;;
    if negb has then throw bad_alloc
    else
      memory <- MemoryPool_allocate ;;
      ret memory.

(** The second copy of the program has the same method without the
    [hasAvailableMemory] test. *)
Definition PoolAllocator_allocate_unchecked (n : N) : M MemoryPool ptr :=
  if N.eqb n 0 then ret nullptr
  else
    memory <- MemoryPool_allocate ;;
    ret memory.

(** [void deallocate(T* p, size_t n)]. *)
Definition PoolAllocator_deallocate (p : ptr) (n : N) : M MemoryPool unit :=
  MemoryPool_deallocate p.

(** ** The typed wrapper: make_unique_pool<T> *)

(** What the wrapper does to an object, recorded in order: [T]'s
    constructor entered on a block, [T]'s destructor called on it, the
    block passed to [pool.deallocate]. *)
Inductive event : Type :=
| EvConstruct (p : ptr)
| EvDestroy (p : ptr)
| EvDeallocate (p : ptr).

Section TypedWrapper.

(** [Store] is the memory the objects live in, as far as the user type's
    constructor and destructor read and write it; [Args] are the
    constructor's arguments. *)
Variable Store : Type.
Variable Args : Type.

(** The program state seen by [make_unique_pool]: the pool it holds a
    reference to, the objects, and the record of events. *)
Record World : Type := mkWorld {
  w_pool : MemoryPool;
  w_store : Store;
  w_trace : list event
}.

(** A type [T]: its constructor, run on a block and possibly throwing,
    and its destructor, which does not throw. Both may use the pool
    themselves, as a container drawing its storage from a
    [PoolAllocator] does. *)
Record Class : Type := mkClass {
  construct : Args -> ptr -> M (MemoryPool * Store) unit;
  destroy : ptr -> MemoryPool * Store -> MemoryPool * Store
}.

Definition on_pool {A} (m : M MemoryPool A) : M World A :=
  zoom w_pool (fun p w => mkWorld p (w_store w) (w_trace w)) m.

Definition on_objects {A} (m : M (MemoryPool * Store) A) : M World A :=
  zoom (fun w => (w_pool w, w_store w))
       (fun ps w => mkWorld (fst ps) (snd ps) (w_trace w)) m.

Definition log (e : event) : M World unit :=
  modify (fun w => mkWorld (w_pool w) (w_store w) (w_trace w ++ [e])).

(** [unique_ptr<T, function<void(T* )>>]: the owned pointer and the
    stored deleter. *)
Record unique_ptr : Type := mk_unique_ptr {
  up_get : ptr;
  up_deleter : ptr -> M World unit
}.

(** The deleter lambda:
    [ptr->~T(); pool.deallocate(ptr);]. *)
Definition deleter (T : Class) (p : ptr) : M World unit :=
  log (EvDestroy p) ;;
  on_objects (modify (destroy T p)) ;;
  log (EvDeallocate p) ;;
  on_pool (MemoryPool_deallocate p).

(** [new (memory) T(args...)]: constructing at a null address is
    undefined; otherwise [T]'s constructor runs on the block and its
    exception, if any, leaves the new-expression. *)
Definition placement_new (T : Class) (args : Args) (memory : ptr)
  : M World ptr :=
  if N.eqb memory nullptr then undefined_behaviour
  else
    log (EvConstruct memory) ;;
    on_objects (construct T args memory) ;;
    ret memory.

(** [make_unique_pool<T>(pool, args...)]. *)
Definition make_unique_pool (T : Class) (args : Args) : M World unique_ptr :=
  let deleter := deleter T in
  memory <- on_pool MemoryPool_allocate ;;
  p <- placement_new T args memory ;;
  ret (mk_unique_ptr p deleter).

(** Giving up a handle ([~unique_ptr], [reset()]): the deleter is called
    on the owned pointer when there is one, and the handle owns nothing
    afterwards. *)
Definition unique_ptr_reset (u : unique_ptr) : M World unique_ptr :=
  let old := up_get u in
  if N.eqb old nullptr then ret (mk_unique_ptr nullptr (up_deleter u))
  else
    up_deleter u old ;;
    ret (mk_unique_ptr nullptr (up_deleter u)).

(** [PoolManager::create<T>(args...)] forwards to [make_unique_pool] on
    the manager's own pool. *)
Definition PoolManager_create (T : Class) (args : Args) : M World unique_ptr :=
  make_unique_pool T args.

(** A type whose constructor leaves the pool alone, whether it returns or
    throws. *)
Definition pool_neutral (T : Class) : Prop :=
  forall args b p s,
    match construct T args b (p, s) with
    | Ok _ q | Throw _ q => fst q = p
    | Undefined => True
    end.

End TypedWrapper.

(** [PoolManager(size_t blockSize, size_t capacity)] constructs its
    member [pool]. *)
Definition PoolManager_ctor (blockSize capacity : N) : M Heap MemoryPool :=
  MemoryPool_ctor blockSize capacity.

(** Two user types. [int], an object of [sizeof(int)] bytes: the
    constructor stores its argument in the block, which is defined when
    the blocks of the pool have room for it and undefined when they are
    smaller; the destructor is trivial. The store is the record of the
    [int]s written, the latest first. *)
Definition sizeof_int : N := 4.

Definition int_class : Class (list (ptr * Z)) Z :=
  mkClass
    (fun v b ps =>
       if N.leb sizeof_int (blockSize (fst ps))
       then Ok tt (fst ps, (b, v) :: snd ps)
       else Undefined)
    (fun _ ps => ps).

(** A type whose constructor always throws. *)
Definition throwing_class : Class unit unit :=
  mkClass
    (fun _ _ => throw (ctor_failure 1))
    (fun _ ps => ps).

(** ** Sequences of calls *)

(** [k] consecutive calls of [allocate], collecting the addresses
    returned, first call first. *)
Fixpoint allocate_n (k : nat) : M MemoryPool (list ptr) :=
  match k with
  | O => ret []
  | S k' =>
      b <- MemoryPool_allocate ;;
      bs <- allocate_n k' ;;
      ret (b :: bs)
  end.

(** [deallocate(allocate())], [k] times. *)
Fixpoint roundtrip (k : nat) : M MemoryPool unit :=
  match k with
  | O => ret tt
  | S k' =>
      b <- MemoryPool_allocate ;;
      MemoryPool_deallocate b ;;
      roundtrip k'
  end.

(** A client of the pool: the pool together with the addresses the client
    holds (obtained from [allocate] and not yet given back). *)
Record Client : Type := mkClient {
  c_pool : MemoryPool;
  checked_out : list ptr
}.

Inductive call : Type :=
| CallAllocate
| CallDeallocate (b : ptr).

Fixpoint remove_one (b : ptr) (l : list ptr) : list ptr :=
  match l with
  | [] => []
  | x :: l' => if N.eqb x b then l' else x :: remove_one b l'
  end.

(** One call by the client. [deallocate] has a precondition the pool does
    not check: the block is one the client holds. A call that breaks it
    has no defined result ([None]). A failed [allocate] leaves the client
    as it was. *)
Definition exec (c : Client) (o : call) : option Client :=
  match o with
  | CallAllocate =>
      match MemoryPool_allocate (c_pool c) with
      | Ok b p' => Some (mkClient p' (b :: checked_out c))
      | Throw _ p' => Some (mkClient p' (checked_out c))
      | Undefined => None
      end
  | CallDeallocate b =>
      if existsb (N.eqb b) (checked_out c) then
        match MemoryPool_deallocate b (c_pool c) with
        | Ok _ p' => Some (mkClient p' (remove_one b (checked_out c)))
        | _ => None
        end
      else None
  end.

Fixpoint exec_all (c : Client) (os : list call) : option Client :=
  match os with
  | [] => Some c
  | o :: os' =>
      match exec c o with
      | Some c' => exec_all c' os'
      | None => None
      end
  end.

(** ** Reading a constructed pool *)

(** An entry of [blocks] that is a block, not the null pointer a refused
    [malloc] returns. *)
Definition nonnull (b : ptr) : bool := negb (N.eqb b nullptr).

(** The answers of the allocator to the next [n] requests, as [script]
    fixes them: [true] for a request it satisfies. *)
Fixpoint granted (n : nat) (s : list bool) : list bool :=
  match n with
  | O => []
  | S n' =>
      match s with
      | false :: _ => false
      | _ => true
      end :: granted n' (tl s)
  end.

(** No address is both held by the client and free, held twice, or free
    twice. *)
Definition no_alias (c : Client) : Prop :=
  NoDup (checked_out c ++ blocks (c_pool c)).

(** ** constexpr int factorial(int n) *)

(** [int] is 32 bits wide. A product outside its range is an overflow of
    signed arithmetic, which has no defined value. *)
Definition INT_MIN : Z := (- 2147483648)%Z.
Definition INT_MAX : Z := 2147483647%Z.

Inductive int_result : Type :=
| IntVal (v : Z)
| IntOverflow
| OutOfFuel.

Definition int_mul (a b : Z) : int_result :=
  if ((INT_MIN <=? a * b) && (a * b <=? INT_MAX))%Z then IntVal (a * b)%Z
  else IntOverflow.

(** [(n <= 1) ? 1 : n * factorial(n - 1)], the recursion bounded by
    [fuel]. *)
Fixpoint factorial_rec (fuel : nat) (n : Z) : int_result :=
  if (n <=? 1)%Z then IntVal 1
  else
    match fuel with
    | O => OutOfFuel
    | S fuel' =>
        match factorial_rec fuel' (n - 1) with
        | IntVal r => int_mul n r
        | other => other
        end
    end.

(** [n] levels of recursion are enough for [factorial(n)]. *)
Definition factorial (n : Z) : int_result := factorial_rec (Z.to_nat n) n.

(** The product [1 * 2 * ... * k]. *)
Fixpoint product_up_to (k : nat) : Z :=
  match k with
  | O => 1%Z
  | S k' => (Z.of_nat k * product_up_to k')%Z
  end.

(** ** PoolAllocator objects and the pools they refer to *)

(** The pools of a program, a [MemoryPool&] being the position of the
    pool it refers to. *)
Definition Pools : Type := list MemoryPool.

Fixpoint set_pool (r : nat) (p : MemoryPool) (ps : Pools) : Pools :=
  match ps, r with
  | [], _ => []
  | _ :: ps', O => p :: ps'
  | q :: ps', S r' => q :: set_pool r' p ps'
  end.

(** A method called through a reference; a reference to no pool is
    undefined. *)
Definition at_pool {A} (r : nat) (m : M MemoryPool A) : M Pools A :=
  fun ps =>
    match nth_error ps r with
    | None => Undefined
    | Some p =>
        match m p with
        | Ok a p' => Ok a (set_pool r p' ps)
        | Throw e p' => Throw e (set_pool r p' ps)
        | Undefined => Undefined
        end
    end.

(** [PoolAllocator<T>]: its only member is [MemoryPool& pool]. *)
Record PoolAllocator : Type := mkPoolAllocator {
  pa_pool : nat
}.

(** [PoolAllocator(MemoryPool& pool)]. *)
Definition PoolAllocator_ctor (pool : nat) : PoolAllocator :=
  mkPoolAllocator pool.

(** [operator==]: [&pool == &other.pool]. *)
Definition PoolAllocator_eq (a other : PoolAllocator) : bool :=
  Nat.eqb (pa_pool a) (pa_pool other).

(** [operator!=]: [!( *this == other)]. *)
Definition PoolAllocator_neq (a other : PoolAllocator) : bool :=
  negb (PoolAllocator_eq a other).

(** [a.allocate(n)] and [a.deallocate(p, n)] on the pool [a] refers to. *)
Definition PoolAllocator_allocate_at (a : PoolAllocator) (n : N)
  : M Pools ptr :=
  at_pool (pa_pool a) (PoolAllocator_allocate n).

Definition PoolAllocator_deallocate_at (a : PoolAllocator) (p : ptr) (n : N)
  : M Pools unit :=
  at_pool (pa_pool a) (PoolAllocator_deallocate p n).

(** ** More sequences of calls *)

(** [deallocate] on each address of a list, first to last. *)
Fixpoint deallocate_each (l : list ptr) : M MemoryPool unit :=
  match l with
  | [] => ret tt
  | b :: l' => MemoryPool_deallocate b ;; deallocate_each l'
  end.

(** [try { m } catch (...) { }]: the exception is caught and the state it
    left is kept. *)
Definition try_catch {S A} (m : M S A) : M S (option A) :=
  fun s =>
    match m s with
    | Ok a s' => Ok (Some a) s'
    | Throw _ s' => Ok None s'
    | Undefined => Undefined
    end.

(** [k] attempts in a row at [make_unique_pool<T>(pool, args...)], each
    in its own [try]; the handles made are dropped from the result but
    not given up. *)
Fixpoint make_attempts {Store Args : Type} (T : Class Store Args)
    (args : Args) (k : nat) : M (World Store) unit :=
  match k with
  | O => ret tt
  | S k' => try_catch (make_unique_pool T args) ;; make_attempts T args k'
  end.

(** A type whose destructor leaves the pool alone. *)
Definition dtor_pool_neutral {Store Args : Type} (T : Class Store Args) : Prop :=
  forall b p s, fst (destroy T b (p, s)) = p.

(** Two [int] objects at these addresses share a byte. *)
Definition overlap (a b : ptr) : bool :=
  N.ltb a (b + sizeof_int) && N.ltb b (a + sizeof_int).

(** Reading the [int] at address [b]: the value of the latest [int]
    written there, provided no [int] written later at another address
    covers one of its bytes. *)
Fixpoint read_int (b : ptr) (s : list (ptr * Z)) : option Z :=
  match s with
  | [] => None
  | (a, v) :: s' =>
      if N.eqb a b then Some v
      else if overlap a b then None
      else read_int b s'
  end.

(** The blocks of a list are regions of [size] bytes that do not meet. *)
Definition separated (size : N) (l : list ptr) : Prop :=
  forall a b, In a l -> In b l -> a <> b ->
              (a + size <= b)%N \/ (b + size <= a)%N.

(** The allocator's live blocks all lie below the next fresh address. *)
Definition heap_wf (h : Heap) : Prop :=
  Forall (fun a => (a < Npos (brk h))%N) (live h).

(** The free list has room, within the buffer the constructor reserved,
    for [k] more entries: [k] calls of [push_back] store in place. *)
Definition within_reserved (k : nat) (p : MemoryPool) : Prop :=
  available p + k <= N.to_nat (capacity p).

(** * Properties *)

(** ** The vector operations *)

Lemma empty_true (l : list ptr) : empty l = true <-> l = [].
Proof. destruct l; simpl; split; congruence. Qed.

Lemma empty_false (l : list ptr) : empty l = false <-> l <> [].
Proof. destruct l; simpl; split; congruence. Qed.

Lemma back_push_back (x : ptr) (l : list ptr) : back (push_back x l) = x.
Proof. unfold back, push_back. apply last_last. Qed.

Lemma pop_back_push_back (x : ptr) (l : list ptr) :
  pop_back (push_back x l) = l.
Proof. unfold pop_back, push_back. apply removelast_last. Qed.

Lemma push_back_pop_back (l : list ptr) :
  l <> [] -> push_back (back l) (pop_back l) = l.
Proof.
  intro Hne. unfold push_back, back, pop_back.
  symmetry. now apply app_removelast_last.
Qed.

Lemma set_blocks_same (p : MemoryPool) : set_blocks (blocks p) p = p.
Proof. now destruct p. Qed.

Lemma set_blocks_twice (l1 l2 : list ptr) (p : MemoryPool) :
  set_blocks l2 (set_blocks l1 p) = set_blocks l2 p.
Proof. reflexivity. Qed.

(** ** allocate and deallocate *)

Lemma allocate_exhausted (p : MemoryPool) :
  blocks p = [] -> MemoryPool_allocate p = Throw bad_alloc p.
Proof. intro H. unfold MemoryPool_allocate. now rewrite H. Qed.

Lemma allocate_back (p : MemoryPool) (l : list ptr) (b : ptr) :
  blocks p = push_back b l ->
  MemoryPool_allocate p = Ok b (set_blocks l p).
Proof.
  intro H. unfold MemoryPool_allocate. rewrite H.
  rewrite back_push_back, pop_back_push_back.
  unfold push_back. now destruct l.
Qed.

Lemma allocate_available (p : MemoryPool) :
  blocks p <> [] ->
  MemoryPool_allocate p = Ok (back (blocks p)) (set_blocks (pop_back (blocks p)) p).
Proof.
  intro H. unfold MemoryPool_allocate.
  now rewrite (proj2 (empty_false _) H).
Qed.

Lemma allocate_Ok_inv (p p' : MemoryPool) (b : ptr) :
  MemoryPool_allocate p = Ok b p' ->
  blocks p = push_back b (blocks p') /\ p' = set_blocks (blocks p') p.
Proof.
  unfold MemoryPool_allocate.
  destruct (empty (blocks p)) eqn:E; [discriminate|].
  intro H. injection H as <- <-. simpl.
  split; [|reflexivity].
  symmetry. apply push_back_pop_back. now apply empty_false.
Qed.

Lemma allocate_Throw_inv (p p' : MemoryPool) (e : exn) :
  MemoryPool_allocate p = Throw e p' ->
  e = bad_alloc /\ p' = p /\ blocks p = [].
Proof.
  unfold MemoryPool_allocate.
  destruct (empty (blocks p)) eqn:E; [|discriminate].
  intro H. injection H as <- <-.
  repeat split. now apply empty_true.
Qed.

Lemma allocate_defined (p : MemoryPool) : MemoryPool_allocate p <> Undefined.
Proof. unfold MemoryPool_allocate. now destruct (empty (blocks p)). Qed.

Lemma deallocate_allocate (p : MemoryPool) (b : ptr) :
  (MemoryPool_deallocate b ;; MemoryPool_allocate) p = Ok b p.
Proof.
  unfold bind, MemoryPool_deallocate, modify.
  rewrite allocate_back with (l := blocks p) (b := b) by reflexivity.
  now rewrite set_blocks_twice, set_blocks_same.
Qed.

Lemma allocate_deallocate (p : MemoryPool) :
  blocks p <> [] ->
  (b <- MemoryPool_allocate ;; MemoryPool_deallocate b) p = Ok tt p.
Proof.
  intro H. unfold bind. rewrite allocate_available by assumption.
  unfold MemoryPool_deallocate, modify. simpl.
  rewrite push_back_pop_back by assumption.
  unfold set_blocks. simpl. now destruct p.
Qed.

(** C8. [allocate] is determined by the free list: on two pools whose
    [blocks] hold the same addresses in the same order it returns the same
    address and leaves the same free list in both (the last element removed,
    the other members untouched), or throws [bad_alloc] on both, leaving
    each pool as it was. *)
Theorem allocate_deterministic (p1 p2 : MemoryPool) :
  blocks p1 = blocks p2 ->
  (exists b l,
      MemoryPool_allocate p1 = Ok b (set_blocks l p1) /\
      MemoryPool_allocate p2 = Ok b (set_blocks l p2)) \/
  (MemoryPool_allocate p1 = Throw bad_alloc p1 /\
   MemoryPool_allocate p2 = Throw bad_alloc p2).
Proof.
  intro Heq.
  destruct (blocks p1) as [|x l] eqn:E1.
  - right. split; apply allocate_exhausted; congruence.
  - left. exists (back (x :: l)), (pop_back (x :: l)).
    split.
    + rewrite <- E1. apply allocate_available. rewrite E1. discriminate.
    + rewrite Heq. apply allocate_available. rewrite <- Heq. discriminate.
Qed.

Lemma allocate_deterministic_witness :
  (exists b l,
      MemoryPool_allocate (mkPool [16; 32]%N 4 2)
        = Ok b (set_blocks l (mkPool [16; 32]%N 4 2)) /\
      MemoryPool_allocate (mkPool [16; 32]%N 8 5)
        = Ok b (set_blocks l (mkPool [16; 32]%N 8 5))) \/
  (MemoryPool_allocate (mkPool [16; 32]%N 4 2)
     = Throw bad_alloc (mkPool [16; 32]%N 4 2) /\
   MemoryPool_allocate (mkPool [16; 32]%N 8 5)
     = Throw bad_alloc (mkPool [16; 32]%N 8 5)).
Proof.
  apply (@allocate_deterministic (mkPool [16; 32]%N 4 2) (mkPool [16; 32]%N 8 5)).
  reflexivity.
Defined.

(** Two runs of [allocate] from one state agree. *)
Corollary allocate_functional (p : MemoryPool) (o1 o2 : outcome MemoryPool ptr) :
  MemoryPool_allocate p = o1 -> MemoryPool_allocate p = o2 -> o1 = o2.
Proof. congruence. Qed.

(** C9. [hasAvailableMemory] answers [true] exactly when the free list is
    not empty, and returns the pool (free list, block size, capacity) as it
    received it. *)
Theorem hasAvailableMemory_spec (p : MemoryPool) :
  exists answer,
    MemoryPool_hasAvailableMemory p = Ok answer p /\
    (answer = true <-> blocks p <> []).
Proof.
  exists (negb (empty (blocks p))). split; [reflexivity|].
  rewrite negb_true_iff. apply empty_false.
Qed.

(** ** Round trips *)

Lemma roundtrip_fixed (k : nat) (p : MemoryPool) :
  blocks p <> [] -> roundtrip k p = Ok tt p.
Proof.
  intro Hne. induction k as [|k IH]; [reflexivity|].
  simpl. unfold bind at 1.
  rewrite allocate_available by assumption.
  unfold bind, MemoryPool_deallocate, modify. simpl.
  rewrite push_back_pop_back by assumption.
  unfold set_blocks at 1. simpl.
  replace (mkPool (blocks p) (blockSize p) (capacity p)) with p
    by now destruct p.
  exact IH.
Qed.

(** C5. On a pool that is not exhausted, [deallocate(allocate())] repeated
    [k] times returns normally and leaves the pool as it was, so the number
    of available blocks is the initial one, and a following [allocate]
    succeeds. *)
Theorem roundtrip_preserves_available (p : MemoryPool) (k : nat) :
  blocks p <> [] ->
  exists p',
    roundtrip k p = Ok tt p' /\
    p' = p /\
    available p' = available p /\
    exists b p'', MemoryPool_allocate p' = Ok b p''.
Proof.
  intro Hne. exists p. split; [now apply roundtrip_fixed|].
  split; [reflexivity|]. split; [reflexivity|].
  eexists _, _. now apply allocate_available.
Qed.

Lemma roundtrip_preserves_available_witness :
  exists p',
    roundtrip 3 (mkPool [16; 32]%N 4 2) = Ok tt p' /\
    p' = mkPool [16; 32]%N 4 2 /\
    available p' = available (mkPool [16; 32]%N 4 2) /\
    exists b p'', MemoryPool_allocate p' = Ok b p''.
Proof.
  apply (@roundtrip_preserves_available (mkPool [16; 32]%N 4 2) 3).
  simpl. discriminate.
Defined.

(** ** PoolAllocator *)

Lemma PoolAllocator_allocate_positive (n : N) (p : MemoryPool) :
  n <> 0%N -> PoolAllocator_allocate n p = MemoryPool_allocate p.
Proof.
  intro Hn. unfold PoolAllocator_allocate.
  rewrite (proj2 (N.eqb_neq n 0) Hn).
  unfold bind, MemoryPool_hasAvailableMemory.
  destruct (empty (blocks p)) eqn:E; simpl.
  - unfold throw. symmetry. apply allocate_exhausted. now apply empty_true.
  - unfold ret. now destruct (MemoryPool_allocate p).
Qed.

(** The copy without the [hasAvailableMemory] test behaves the same. *)
Lemma PoolAllocator_allocate_unchecked_eq (n : N) (p : MemoryPool) :
  PoolAllocator_allocate_unchecked n p = PoolAllocator_allocate n p.
Proof.
  destruct (N.eq_dec n 0) as [->|Hn]; [reflexivity|].
  rewrite PoolAllocator_allocate_positive by assumption.
  unfold PoolAllocator_allocate_unchecked.
  rewrite (proj2 (N.eqb_neq n 0) Hn).
  unfold bind, ret. now destruct (MemoryPool_allocate p).
Qed.

(** C10, as the claim has it, fails on an exhausted pool: with [n = 1] the
    call throws [bad_alloc] and removes nothing. *)
Lemma PoolAllocator_allocate_exhausted_counterexample :
  PoolAllocator_allocate 1 (mkPool [] 4 1) = Throw bad_alloc (mkPool [] 4 1) /\
  ~ (exists b p',
        PoolAllocator_allocate 1 (mkPool [] 4 1) = Ok b p' /\
        available (mkPool [] 4 1) = S (available p')).
Proof.
  split; [reflexivity|].
  intros (b & p' & H & _). discriminate H.
Qed.

(** C10, amended. [PoolAllocator<T>::allocate(n)] returns a null pointer
    and leaves the pool alone when [n = 0]; for every [n >= 1] it removes
    exactly one block, the last of the free list, when the pool has one,
    and throws [bad_alloc] leaving the pool alone when it has none. In
    neither case does the outcome depend on [n]. Both copies of the method
    agree. *)
Theorem PoolAllocator_allocate_cases (n : N) (p : MemoryPool) :
  ((n = 0%N /\ PoolAllocator_allocate n p = Ok nullptr p) \/
   (n <> 0%N /\
    exists b l,
      blocks p = push_back b l /\
      available p = S (length l) /\
      PoolAllocator_allocate n p = Ok b (set_blocks l p)) \/
   (n <> 0%N /\ blocks p = [] /\
    PoolAllocator_allocate n p = Throw bad_alloc p)) /\
  PoolAllocator_allocate n p = PoolAllocator_allocate (N.min n 1) p /\
  PoolAllocator_allocate_unchecked n p = PoolAllocator_allocate n p.
Proof.
  split; [|split].
  - destruct (N.eq_dec n 0) as [->|Hn]; [left; now split|right].
    rewrite PoolAllocator_allocate_positive by assumption.
    destruct (blocks p) as [|x l] eqn:E.
    + right. repeat split; trivial. now apply allocate_exhausted.
    + left. split; [assumption|].
      assert (Hne : x :: l <> []) by discriminate.
      exists (back (x :: l)), (pop_back (x :: l)).
      rewrite push_back_pop_back by assumption.
      split; [reflexivity|]. split.
      * unfold available. rewrite E.
        rewrite <- (push_back_pop_back Hne) at 1.
        unfold push_back. rewrite length_app. simpl. lia.
      * rewrite <- E. apply allocate_available. now rewrite E.
  - destruct (N.eq_dec n 0) as [->|Hn]; [reflexivity|].
    rewrite !PoolAllocator_allocate_positive; trivial.
    lia.
  - apply PoolAllocator_allocate_unchecked_eq.
Qed.

(** ** The system allocator *)

Lemma nonnull_true (b : ptr) : nonnull b = true <-> b <> nullptr.
Proof. unfold nonnull. rewrite negb_true_iff. apply N.eqb_neq. Qed.

Lemma filter_nonnull_all (l : list ptr) :
  ~ In nullptr l -> filter nonnull l = l.
Proof.
  induction l as [|x l IH]; [reflexivity|].
  intro Hnin. simpl.
  assert (Hx : nonnull x = true).
  { apply nonnull_true. intro Hx. apply Hnin. now left. }
  rewrite Hx. f_equal. apply IH. intro Hin. apply Hnin. now right.
Qed.

Lemma malloc_cases (size : N) (h : Heap) :
  (refused h = true /\
   malloc size h = (nullptr, mkHeap (live h) (brk h) (tl (script h)))) \/
  (refused h = false /\
   malloc size h =
     (Npos (brk h),
      mkHeap (Npos (brk h) :: live h) (brk h + N.succ_pos size) (tl (script h)))).
Proof. unfold malloc. destruct (refused h); [left|right]; now split. Qed.

Lemma vector_reserve_cases (capacity : N) (h : Heap) :
  (exists e h1, vector_reserve capacity h = Throw e h1 /\ live h1 = live h) \/
  (exists h1,
      vector_reserve capacity h = Ok tt h1 /\ live h1 = live h /\
      (brk h <= brk h1)%positive).
Proof.
  unfold vector_reserve.
  destruct (N.eqb capacity 0).
  - right. exists h. repeat split. lia.
  - destruct (N.ltb vector_max_size capacity).
    + left. exists length_error, h. now split.
    + unfold bind, operator_new, ret. destruct (refused h).
      * left. eexists _, _. split; reflexivity.
      * right. eexists. repeat split. simpl. lia.
Qed.

(** ** The constructor's loop *)

Lemma MemoryPool_fill_spec (n : nat) (size : N) :
  forall (l : list ptr) (h : Heap),
  exists new h',
    MemoryPool_fill n size l h = (l ++ new, h') /\
    length new = n /\
    map nonnull new = granted n (script h) /\
    Forall (fun b => b <> nullptr -> (Npos (brk h) <= b < Npos (brk h'))%N) new /\
    NoDup (filter nonnull new) /\
    (brk h <= brk h')%positive /\
    live h' = rev (filter nonnull new) ++ live h.
Proof.
  induction n as [|n IH]; intros l h.
  - exists [], h. rewrite app_nil_r. simpl.
    repeat split; try constructor. lia.
  - simpl.
    destruct (malloc_cases size h) as [[Hr ->]|[Hr ->]].
    + destruct (IH (push_back nullptr l)
                   (mkHeap (live h) (brk h) (tl (script h))))
        as (new & h' & Hfill & Hlen & Hmap & Hrange & Hnd & Hbrk & Hlive).
      simpl in *.
      exists (nullptr :: new), h'. unfold push_back in Hfill.
      rewrite <- app_assoc in Hfill. simpl in Hfill.
      split; [exact Hfill|]. split; [simpl; now rewrite Hlen|].
      split.
      { simpl. rewrite Hmap. f_equal.
        unfold refused in Hr. destruct (script h) as [|[|] ?]; try discriminate.
        reflexivity. }
      split; [constructor; [congruence|exact Hrange]|].
      simpl. now repeat split.
    + destruct (IH (push_back (Npos (brk h)) l)
                   (mkHeap (Npos (brk h) :: live h)
                           (brk h + N.succ_pos size) (tl (script h))))
        as (new & h' & Hfill & Hlen & Hmap & Hrange & Hnd & Hbrk & Hlive).
      simpl in *.
      exists (Npos (brk h) :: new), h'. unfold push_back in Hfill.
      rewrite <- app_assoc in Hfill. simpl in Hfill.
      split; [exact Hfill|]. split; [simpl; now rewrite Hlen|].
      split.
      { simpl. rewrite Hmap. f_equal.
        unfold refused in Hr. destruct (script h) as [|[|] ?]; try discriminate;
          reflexivity. }
      split.
      { constructor.
        - intros _. split; [reflexivity|]. lia.
        - eapply Forall_impl; [|exact Hrange].
          simpl. intros b Hb Hnn. specialize (Hb Hnn). lia. }
      split.
      { simpl. constructor; [|exact Hnd].
        intro Hin. apply filter_In in Hin. destruct Hin as [Hin Hnn].
        rewrite Forall_forall in Hrange.
        specialize (Hrange _ Hin (proj1 (nonnull_true _) Hnn)). lia. }
      split; [lia|].
      simpl. rewrite Hlive, <- app_assoc. reflexivity.
Qed.

(** ** The constructor *)

Lemma MemoryPool_ctor_after_reserve (bs cap : N) (h h1 : Heap) :
  vector_reserve cap h = Ok tt h1 ->
  MemoryPool_ctor bs cap h =
    Ok (mkPool (fst (MemoryPool_fill (N.to_nat cap) bs [] h1)) bs cap)
       (snd (MemoryPool_fill (N.to_nat cap) bs [] h1)).
Proof.
  intro Hres. unfold MemoryPool_ctor, bind. rewrite Hres.
  now destruct (MemoryPool_fill (N.to_nat cap) bs [] h1).
Qed.

Lemma MemoryPool_ctor_reserve_throws (bs cap : N) (h h1 : Heap) (e : exn) :
  vector_reserve cap h = Throw e h1 ->
  MemoryPool_ctor bs cap h = Throw e h1.
Proof. intro Hres. unfold MemoryPool_ctor, bind. now rewrite Hres. Qed.

(** C2, as the claim has it, fails when [malloc] refuses a block: with the
    first block granted and the second refused, construction succeeds, the
    free list holds a null pointer where the second block should be, and no
    exception is thrown. *)
Lemma MemoryPool_ctor_refused_counterexample :
  MemoryPool_ctor 4 2 (mkHeap [] 1 [true; true; false])
    = Ok (mkPool [18; 0]%N 4 2) (mkHeap [18%N] 23 []) /\
  ~ ((exists p h',
         MemoryPool_ctor 4 2 (mkHeap [] 1 [true; true; false]) = Ok p h' /\
         length (blocks p) = 2 /\ ~ In nullptr (blocks p)) \/
     (exists h',
         MemoryPool_ctor 4 2 (mkHeap [] 1 [true; true; false])
           = Throw bad_alloc h' /\
         live h' = [])).
Proof.
  split; [reflexivity|].
  intros [(p & h' & H & _ & Hnn)|(h' & H & _)].
  - vm_compute in H. injection H as <- <-. apply Hnn. simpl. auto.
  - vm_compute in H. discriminate H.
Qed.

(** C2, amended. For every block size and capacity, construction either
    fails in [blocks.reserve], before any block is requested, the
    allocator's live blocks being those it had, or succeeds with exactly
    [capacity] entries in the free list. A block request the allocator
    refuses does not fail the construction: its entry is a null pointer,
    and the entries of the granted requests are blocks. The constructor
    releases nothing: the blocks it acquired are all live afterwards. *)
Theorem MemoryPool_ctor_outcome (bs cap : N) (h : Heap) :
  (exists e h1,
      vector_reserve cap h = Throw e h1 /\
      MemoryPool_ctor bs cap h = Throw e h1 /\
      live h1 = live h) \/
  (exists h1 l h',
      vector_reserve cap h = Ok tt h1 /\
      MemoryPool_ctor bs cap h = Ok (mkPool l bs cap) h' /\
      length l = N.to_nat cap /\
      map nonnull l = granted (N.to_nat cap) (script h1) /\
      live h' = rev (filter nonnull l) ++ live h).
Proof.
  destruct (vector_reserve_cases cap h)
    as [(e & h1 & Hres & Hlive)|(h1 & Hres & Hlive & _)].
  - left. exists e, h1. split; [assumption|]. split; [|assumption].
    now apply MemoryPool_ctor_reserve_throws.
  - right.
    destruct (MemoryPool_fill_spec (N.to_nat cap) bs [] h1)
      as (new & h' & Hfill & Hlen & Hmap & _ & _ & _ & Hlive').
    exists h1, new, h'. split; [assumption|].
    split.
    { rewrite (@MemoryPool_ctor_after_reserve bs cap h h1 Hres), Hfill. reflexivity. }
    repeat split; try assumption. congruence.
Qed.

(** A constructed pool: what the free list holds. *)
Lemma MemoryPool_ctor_Ok_inv (bs cap : N) (h h' : Heap) (pool : MemoryPool) :
  MemoryPool_ctor bs cap h = Ok pool h' ->
  length (blocks pool) = N.to_nat cap /\
  blockSize pool = bs /\ capacity pool = cap /\
  NoDup (filter nonnull (blocks pool)).
Proof.
  intro Hctor.
  destruct (vector_reserve_cases cap h)
    as [(e & h1 & Hres & _)|(h1 & Hres & _)].
  - rewrite (@MemoryPool_ctor_reserve_throws bs cap h h1 e Hres) in Hctor.
    discriminate.
  - rewrite (@MemoryPool_ctor_after_reserve bs cap h h1 Hres) in Hctor.
    destruct (MemoryPool_fill_spec (N.to_nat cap) bs [] h1)
      as (new & h2 & Hfill & Hlen & _ & _ & Hnd & _).
    rewrite Hfill in Hctor. simpl in Hctor. injection Hctor as <- <-.
    simpl. now repeat split.
Qed.

(** ** Exhausting a pool *)

Lemma allocate_n_all (l : list ptr) :
  forall p : MemoryPool,
    blocks p = l ->
    allocate_n (length l) p = Ok (rev l) (set_blocks [] p).
Proof.
  induction l as [|b l IH] using rev_ind; intros p Hp.
  - simpl. unfold ret. rewrite <- Hp. now rewrite set_blocks_same.
  - rewrite length_app, Nat.add_comm. simpl.
    unfold bind at 1.
    rewrite allocate_back with (l := l) (b := b) by exact Hp.
    unfold bind. rewrite (IH (set_blocks l p)) by reflexivity.
    unfold ret. now rewrite rev_unit.
Qed.

(** C1, as the claim has it, fails when [malloc] refuses two blocks: both
    entries of the pool are null pointers, and the two calls of [allocate]
    that succeed return the same address. *)
Lemma allocate_distinct_counterexample :
  exists pool h',
    MemoryPool_ctor (2 ^ 64 - 1) 2 (mkHeap [] 1 [true; false; false])
      = Ok pool h' /\
    allocate_n 2 pool = Ok [nullptr; nullptr] (set_blocks [] pool) /\
    ~ NoDup [nullptr; nullptr].
Proof.
  eexists _, _. split; [reflexivity|]. split; [reflexivity|].
  intro Hnd. inversion Hnd as [|x l Hnin _]. apply Hnin. now left.
Qed.

(** One call more than the free list has entries throws at the last one,
    with the pool exhausted. *)
Lemma allocate_n_one_more (l : list ptr) :
  forall p : MemoryPool,
    blocks p = l ->
    allocate_n (S (length l)) p = Throw bad_alloc (set_blocks [] p).
Proof.
  induction l as [|b l IH] using rev_ind; intros p Hp.
  - simpl. unfold bind. rewrite allocate_exhausted by assumption.
    rewrite <- Hp. now rewrite set_blocks_same.
  - rewrite length_app, Nat.add_comm. simpl (length [b] + length l).
    change (allocate_n (S (S (length l))) p)
      with ((x <- MemoryPool_allocate ;;
             xs <- allocate_n (S (length l)) ;; ret (x :: xs)) p).
    unfold bind at 1.
    rewrite allocate_back with (l := l) (b := b) by exact Hp.
    unfold bind. now rewrite (IH (set_blocks l p)) by reflexivity.
Qed.

(** C1, amended. For every pool constructed with capacity [N], exactly [N]
    consecutive calls of [allocate] succeed, returning the entries of the
    free list last first, and the call after them throws [bad_alloc]. The
    addresses returned that are blocks are pairwise distinct; so all [N]
    are pairwise distinct when [malloc] refused no block of the
    construction (the free list holds no null pointer). *)
Theorem allocate_capacity_times (bs cap : N) (h h' : Heap) (pool : MemoryPool) :
  MemoryPool_ctor bs cap h = Ok pool h' ->
  exists addrs pool',
    allocate_n (N.to_nat cap) pool = Ok addrs pool' /\
    length addrs = N.to_nat cap /\
    addrs = rev (blocks pool) /\
    MemoryPool_allocate pool' = Throw bad_alloc pool' /\
    allocate_n (S (N.to_nat cap)) pool = Throw bad_alloc pool' /\
    NoDup (filter nonnull addrs) /\
    (~ In nullptr (blocks pool) -> NoDup addrs).
Proof.
  intro Hctor.
  destruct (@MemoryPool_ctor_Ok_inv bs cap h h' pool Hctor)
    as (Hlen & _ & _ & Hnd).
  exists (rev (blocks pool)), (set_blocks [] pool).
  split; [rewrite <- Hlen; now apply allocate_n_all|].
  split; [now rewrite length_rev|].
  split; [reflexivity|].
  split; [now apply allocate_exhausted|].
  split; [rewrite <- Hlen; now apply allocate_n_one_more|].
  split; [rewrite filter_rev; now apply NoDup_rev|].
  intro Hnn. rewrite filter_nonnull_all in Hnd by assumption.
  now apply NoDup_rev.
Qed.

Lemma allocate_capacity_times_witness :
  exists addrs pool',
    allocate_n (N.to_nat 3) (mkPool [26; 31; 36]%N 4 3) = Ok addrs pool' /\
    length addrs = N.to_nat 3 /\
    addrs = rev (blocks (mkPool [26; 31; 36]%N 4 3)) /\
    MemoryPool_allocate pool' = Throw bad_alloc pool' /\
    allocate_n (S (N.to_nat 3)) (mkPool [26; 31; 36]%N 4 3)
      = Throw bad_alloc pool' /\
    NoDup (filter nonnull addrs) /\
    (~ In nullptr (blocks (mkPool [26; 31; 36]%N 4 3)) -> NoDup addrs).
Proof.
  apply (@allocate_capacity_times 4 3 (mkHeap [] 1 [])
           (mkHeap [36; 31; 26]%N 41 []) (mkPool [26; 31; 36]%N 4 3)).
  reflexivity.
Defined.

(** ** make_unique_pool *)

Section TypedWrapperFacts.

Variables Store Args : Type.
Variable T : Class Store Args.

Lemma World_eta (w : World Store) :
  mkWorld (w_pool w) (w_store w) (w_trace w) = w.
Proof. now destruct w. Qed.

(** On a pool with a block, [make_unique_pool] takes the last block and
    runs the constructor on it; what the constructor does decides the
    outcome. *)
Lemma make_unique_pool_available (args : Args) (w : World Store) :
  blocks (w_pool w) <> [] ->
  make_unique_pool T args w =
    let b := back (blocks (w_pool w)) in
    if N.eqb b nullptr then Undefined
    else
      match construct T args b
              (set_blocks (pop_back (blocks (w_pool w))) (w_pool w), w_store w)
      with
      | Ok _ q =>
          Ok (mk_unique_ptr b (deleter T))
             (mkWorld (fst q) (snd q) (w_trace w ++ [EvConstruct b]))
      | Throw e q =>
          Throw e (mkWorld (fst q) (snd q) (w_trace w ++ [EvConstruct b]))
      | Undefined => Undefined
      end.
Proof.
  intro Hne.
  unfold make_unique_pool, bind at 1, on_pool, zoom.
  rewrite allocate_available by assumption. simpl.
  unfold placement_new.
  destruct (N.eqb (back (blocks (w_pool w))) nullptr); [reflexivity|].
  unfold bind, log, modify, on_objects, zoom, ret. simpl.
  now destruct (construct T args _ _).
Qed.

Lemma make_unique_pool_Ok_inv (args : Args) (w w1 : World Store)
    (u : unique_ptr Store) :
  make_unique_pool T args w = Ok u w1 ->
  up_get u <> nullptr /\ up_deleter u = deleter T /\
  blocks (w_pool w) <> [] /\ up_get u = back (blocks (w_pool w)).
Proof.
  intro H.
  destruct (blocks (w_pool w)) as [|x l] eqn:E.
  - unfold make_unique_pool, bind, on_pool, zoom in H.
    rewrite allocate_exhausted in H by assumption. discriminate.
  - assert (Hne : blocks (w_pool w) <> []) by (rewrite E; discriminate).
    rewrite make_unique_pool_available in H by assumption.
    cbv zeta in H. rewrite E in H.
    destruct (N.eqb (back (x :: l)) nullptr) eqn:Enull; [discriminate|].
    destruct (construct T args _ _); try discriminate.
    injection H as <- <-. simpl.
    apply N.eqb_neq in Enull. repeat split; trivial. discriminate.
Qed.

(** C7. On an exhausted pool [make_unique_pool<T>] (and
    [PoolManager::create<T>], which forwards to it) throws [bad_alloc]
    and leaves everything as it was: the free list and the rest of the
    pool, the objects, and the record of events, to which no
    construction has been added. *)
Theorem make_unique_pool_exhausted (args : Args) (w : World Store) :
  blocks (w_pool w) = [] ->
  make_unique_pool T args w = Throw bad_alloc w /\
  PoolManager_create T args w = Throw bad_alloc w.
Proof.
  intro Hempty.
  assert (H : make_unique_pool T args w = Throw bad_alloc w).
  { unfold make_unique_pool, bind, on_pool, zoom.
    rewrite allocate_exhausted by assumption.
    now rewrite World_eta. }
  split; [exact H|exact H].
Qed.

(** What the deleter does. *)
Lemma deleter_spec (p : ptr) (w : World Store) :
  deleter T p w =
    Ok tt
       (mkWorld
          (set_blocks
             (push_back p (blocks (fst (destroy T p (w_pool w, w_store w)))))
             (fst (destroy T p (w_pool w, w_store w))))
          (snd (destroy T p (w_pool w, w_store w)))
          (w_trace w ++ [EvDestroy p; EvDeallocate p])).
Proof.
  unfold deleter, bind, log, modify, on_objects, on_pool, zoom,
    MemoryPool_deallocate, modify.
  simpl. now rewrite <- app_assoc.
Qed.


(** C3, amended. When [T]'s constructor throws in [make_unique_pool<T>],
    the exception leaves the call and the block taken for the object is
    not given back: for a constructor that does not use the pool itself,
    the free list after the call is the one before it without its last
    block, one block fewer. Neither the destructor nor [deallocate] has
    been called. *)
Theorem make_unique_pool_ctor_throws (args : Args) (w w' : World Store)
    (e : exn) :
  pool_neutral T ->
  blocks (w_pool w) <> [] ->
  make_unique_pool T args w = Throw e w' ->
  blocks (w_pool w) = push_back (back (blocks (w_pool w))) (blocks (w_pool w')) /\
  available (w_pool w) = S (available (w_pool w')) /\
  w_trace w' = w_trace w ++ [EvConstruct (back (blocks (w_pool w)))].
Proof.
  intros Hneutral Hne Hmake.
  rewrite make_unique_pool_available in Hmake by assumption.
  cbv zeta in Hmake.
  destruct (N.eqb (back (blocks (w_pool w))) nullptr); [discriminate|].
  specialize (Hneutral args (back (blocks (w_pool w)))
                (set_blocks (pop_back (blocks (w_pool w))) (w_pool w))
                (w_store w)).
  destruct (construct T args _ _) as [a q|e' q|]; try discriminate.
  injection Hmake as <- <-. simpl. rewrite Hneutral. simpl.
  assert (Hpush : blocks (w_pool w) =
                  push_back (back (blocks (w_pool w)))
                            (pop_back (blocks (w_pool w))))
    by (symmetry; now apply push_back_pop_back).
  split; [exact Hpush|]. split; [|reflexivity].
  unfold available. simpl. rewrite Hpush at 1.
  unfold push_back. rewrite length_app. simpl. lia.
Qed.

End TypedWrapperFacts.


Lemma make_unique_pool_exhausted_witness :
  make_unique_pool int_class 42%Z (mkWorld (mkPool [] 4 2) [] [])
    = Throw bad_alloc (mkWorld (mkPool [] 4 2) [] []) /\
  PoolManager_create int_class 42%Z (mkWorld (mkPool [] 4 2) [] [])
    = Throw bad_alloc (mkWorld (mkPool [] 4 2) [] []).
Proof.
  apply (@make_unique_pool_exhausted _ _ int_class 42%Z
           (mkWorld (mkPool [] 4 2) [] [])).
  reflexivity.
Defined.

(** C3, as the claim has it, fails: after a construction that throws, the
    pool has one block fewer than before the call. *)
Lemma make_unique_pool_leak_counterexample :
  make_unique_pool throwing_class tt (mkWorld (mkPool [16; 32]%N 4 2) tt [])
    = Throw (ctor_failure 1)
        (mkWorld (mkPool [16%N] 4 2) tt [EvConstruct 32%N]) /\
  available (mkPool [16%N] 4 2) <> available (mkPool [16; 32]%N 4 2).
Proof. split; [reflexivity|]. simpl. discriminate. Qed.

Lemma make_unique_pool_ctor_throws_witness :
  blocks (mkPool [16; 32]%N 4 2)
    = push_back (back (blocks (mkPool [16; 32]%N 4 2)))
        (blocks (mkPool [16%N] 4 2)) /\
  available (mkPool [16; 32]%N 4 2) = S (available (mkPool [16%N] 4 2)) /\
  [EvConstruct 32%N] = [] ++ [EvConstruct (back (blocks (mkPool [16; 32]%N 4 2)))].
Proof.
  apply (@make_unique_pool_ctor_throws _ _ throwing_class tt
           (mkWorld (mkPool [16; 32]%N 4 2) tt [])
           (mkWorld (mkPool [16%N] 4 2) tt [EvConstruct 32%N])
           (ctor_failure 1)).
  - intros args b p s. reflexivity.
  - simpl. discriminate.
  - reflexivity.
Defined.

(** ** No aliasing among checked-out blocks *)

Lemma remove_one_Permutation (b : ptr) (l : list ptr) :
  In b l -> Permutation l (b :: remove_one b l).
Proof.
  induction l as [|x l IH]; intro Hin; [contradiction|].
  simpl. destruct (N.eqb x b) eqn:E.
  - apply N.eqb_eq in E. now subst.
  - destruct Hin as [->|Hin]; [now rewrite N.eqb_refl in E|].
    rewrite perm_swap. apply perm_skip. now apply IH.
Qed.

Lemma existsb_eqb_In (b : ptr) (l : list ptr) :
  existsb (N.eqb b) l = true -> In b l.
Proof.
  intro H. apply existsb_exists in H. destruct H as (x & Hin & Heq).
  apply N.eqb_eq in Heq. now subst.
Qed.

Lemma exec_no_alias (c c' : Client) (o : call) :
  no_alias c -> exec c o = Some c' -> no_alias c'.
Proof.
  unfold no_alias. intros Hinv Hexec.
  destruct o as [|b]; simpl in Hexec.
  - destruct (MemoryPool_allocate (c_pool c)) as [b p'|e p'|] eqn:Halloc;
      try discriminate; injection Hexec as <-; simpl.
    + apply allocate_Ok_inv in Halloc. destruct Halloc as [Hb _].
      rewrite Hb in Hinv. unfold push_back in Hinv.
      eapply Permutation_NoDup; [|exact Hinv].
      rewrite app_assoc. symmetry. apply Permutation_cons_append.
    + apply allocate_Throw_inv in Halloc. destruct Halloc as (_ & -> & _).
      exact Hinv.
  - destruct (existsb (N.eqb b) (checked_out c)) eqn:Hheld; [|discriminate].
    apply existsb_eqb_In in Hheld.
    injection Hexec as <-. simpl. unfold push_back.
    eapply Permutation_NoDup; [|exact Hinv].
    rewrite (remove_one_Permutation _ _ Hheld) at 1.
    rewrite app_assoc. simpl. apply Permutation_cons_append.
Qed.

Lemma exec_all_no_alias (os : list call) :
  forall c c', no_alias c -> exec_all c os = Some c' -> no_alias c'.
Proof.
  induction os as [|o os IH]; intros c c' Hinv Hrun; simpl in Hrun.
  - now injection Hrun as <-.
  - destruct (exec c o) as [c1|] eqn:Hexec; [|discriminate].
    eapply IH; [|exact Hrun]. eapply exec_no_alias; eassumption.
Qed.

Lemma exec_all_app (os1 os2 : list call) :
  forall c,
    exec_all c (os1 ++ os2) =
      match exec_all c os1 with
      | Some c' => exec_all c' os2
      | None => None
      end.
Proof.
  induction os1 as [|o os1 IH]; intro c; simpl; [reflexivity|].
  destruct (exec c o); [apply IH|reflexivity].
Qed.

Lemma no_alias_allocate (c : Client) (b : ptr) (p' : MemoryPool) :
  no_alias c ->
  MemoryPool_allocate (c_pool c) = Ok b p' ->
  ~ In b (checked_out c) /\ ~ In b (blocks p').
Proof.
  unfold no_alias. intros Hinv Halloc.
  apply allocate_Ok_inv in Halloc. destruct Halloc as [Hb _].
  rewrite Hb in Hinv. unfold push_back in Hinv.
  rewrite app_assoc in Hinv.
  apply NoDup_remove_2 in Hinv. rewrite app_nil_r in Hinv.
  split; intro Hin; apply Hinv, in_or_app; auto.
Qed.

(** C4, as the claim has it, fails on a pool the constructor built while
    [malloc] refused two blocks: its free list holds the null pointer
    twice, and with no [deallocate] at all the second [allocate] returns
    the address the first one handed out and that is still held. *)
Lemma no_aliasing_counterexample :
  exists pool h' c1 c2,
    MemoryPool_ctor (2 ^ 64 - 1) 2 (mkHeap [] 1 [true; false; false])
      = Ok pool h' /\
    exec_all (mkClient pool []) [CallAllocate] = Some c1 /\
    (exists b p',
        MemoryPool_allocate (c_pool c1) = Ok b p' /\ In b (checked_out c1)) /\
    exec_all (mkClient pool []) [CallAllocate; CallAllocate] = Some c2 /\
    ~ NoDup (checked_out c2 ++ blocks (c_pool c2)).
Proof.
  eexists _, _, _, _. split; [reflexivity|]. split; [reflexivity|].
  split.
  { eexists _, _. split; [reflexivity|]. simpl. now left. }
  split; [reflexivity|].
  simpl. intro Hnd. inversion Hnd as [|x l Hnin _]. apply Hnin. now left.
Qed.

(** C4, amended. Take a pool whose free list holds pairwise distinct
    addresses (as the constructor leaves it when [malloc] refused no
    block) and a client holding none, and any sequence of [allocate] and
    [deallocate] calls in which every [deallocate] gives back a block the
    client holds at that moment (obtained from this pool, not yet given
    back). At every point of the sequence the addresses held and the free
    addresses are pairwise distinct, and an [allocate] at that point
    returns an address that is neither held nor left in the free list. *)
Theorem no_aliasing (p0 : MemoryPool) (before after : list call)
    (c_end : Client) :
  NoDup (blocks p0) ->
  exec_all (mkClient p0 []) (before ++ after) = Some c_end ->
  exists c,
    exec_all (mkClient p0 []) before = Some c /\
    NoDup (checked_out c ++ blocks (c_pool c)) /\
    forall b p',
      MemoryPool_allocate (c_pool c) = Ok b p' ->
      ~ In b (checked_out c) /\ ~ In b (blocks p').
Proof.
  intros Hnd Hrun. rewrite exec_all_app in Hrun.
  destruct (exec_all (mkClient p0 []) before) as [c|] eqn:Hbefore;
    [|discriminate].
  exists c. split; [reflexivity|].
  assert (Hinv : no_alias c).
  { eapply exec_all_no_alias; [|exact Hbefore]. exact Hnd. }
  split; [exact Hinv|].
  intros b p'. now apply no_alias_allocate.
Qed.

Lemma no_aliasing_witness :
  exists c,
    exec_all (mkClient (mkPool [16; 32]%N 4 2) [])
      [CallAllocate; CallAllocate; CallAllocate; CallDeallocate 32%N]
      = Some c /\
    NoDup (checked_out c ++ blocks (c_pool c)) /\
    forall b p',
      MemoryPool_allocate (c_pool c) = Ok b p' ->
      ~ In b (checked_out c) /\ ~ In b (blocks p').
Proof.
  apply (@no_aliasing (mkPool [16; 32]%N 4 2)
           [CallAllocate; CallAllocate; CallAllocate; CallDeallocate 32%N]
           [CallAllocate; CallDeallocate 16%N]
           (mkClient (mkPool [16%N] 4 2) [32%N])).
  - simpl. repeat constructor; simpl; intuition discriminate.
  - reflexivity.
Defined.

(** A pool as the constructor leaves it when [malloc] refused no block is
    such a pool. *)
Lemma MemoryPool_ctor_no_alias (bs cap : N) (h h' : Heap) (pool : MemoryPool) :
  MemoryPool_ctor bs cap h = Ok pool h' ->
  ~ In nullptr (blocks pool) ->
  no_alias (mkClient pool []).
Proof.
  intros Hctor Hnn. unfold no_alias. simpl.
  destruct (@MemoryPool_ctor_Ok_inv bs cap h h' pool Hctor) as (_ & _ & _ & Hnd).
  now rewrite filter_nonnull_all in Hnd.
Qed.

(** ** The scenarios of the design document *)

(** A pool of two [int]-sized blocks: two calls of [allocate] return
    distinct addresses, the third throws, and after the first address is
    given back the next call returns it again. *)
Example scenario_two_blocks :
  (pool <- MemoryPool_ctor 4 2 ;;
   fun h =>
     Ok ((a1 <- MemoryPool_allocate ;;
          a2 <- MemoryPool_allocate ;;
          ret (a1, a2)) pool,
         (_ <- MemoryPool_allocate ;;
          _ <- MemoryPool_allocate ;;
          MemoryPool_allocate) pool,
         (a1 <- MemoryPool_allocate ;;
          _ <- MemoryPool_allocate ;;
          MemoryPool_deallocate a1 ;;
          MemoryPool_allocate) pool) h) (mkHeap [] 1 [])
  = Ok (Ok (23, 18)%N (mkPool [] 4 2),
        Throw bad_alloc (mkPool [] 4 2),
        Ok 23%N (mkPool [] 4 2))
       (mkHeap [23; 18]%N 28 []).
Proof. reflexivity. Qed.

(** [create<int>(42)]: the block holds 42; after the handle is given up
    the pool has one more block available. *)
Example scenario_create_int :
  (u <- make_unique_pool int_class 42%Z ;;
   w1 <- get_state ;;
   _ <- unique_ptr_reset u ;;
   w2 <- get_state ;;
   ret (up_get u, w_store w1, available (w_pool w1), available (w_pool w2)))
    (mkWorld (mkPool [18; 23]%N 4 2) [] [])
  = Ok (23%N, [(23%N, 42%Z)], 1, 2)
       (mkWorld (mkPool [18; 23]%N 4 2) [(23%N, 42%Z)]
          [EvConstruct 23%N; EvDestroy 23%N; EvDeallocate 23%N]).
Proof. reflexivity. Qed.


(** ** factorial *)

Lemma product_up_to_pos (k : nat) : (1 <= product_up_to k)%Z.
Proof.
  induction k as [|k IH]; [simpl; lia|].
  change (product_up_to (S k)) with (Z.of_nat (S k) * product_up_to k)%Z.
  nia.
Qed.

Lemma product_up_to_mono (j k : nat) :
  (j <= k)%nat -> (product_up_to j <= product_up_to k)%Z.
Proof.
  induction 1 as [|k Hle IH]; [lia|].
  change (product_up_to (S k)) with (Z.of_nat (S k) * product_up_to k)%Z.
  pose proof (product_up_to_pos k). nia.
Qed.

Lemma factorial_rec_small (fuel : nat) (n : Z) :
  (n <= 1)%Z -> factorial_rec fuel n = IntVal 1.
Proof.
  intro H. destruct fuel; simpl; now rewrite (proj2 (Z.leb_le n 1) H).
Qed.

Lemma factorial_rec_step (fuel : nat) (n : Z) :
  (1 < n)%Z ->
  factorial_rec (S fuel) n =
    match factorial_rec fuel (n - 1) with
    | IntVal r => int_mul n r
    | other => other
    end.
Proof.
  intro H. simpl. now rewrite (proj2 (Z.leb_gt n 1) H).
Qed.

(** With fuel for [k] levels, [factorial(k)] is the product up to [k] as
    long as that product fits an [int]. *)
Lemma factorial_rec_product (k : nat) :
  forall fuel : nat,
    (k <= fuel)%nat ->
    (product_up_to k <= INT_MAX)%Z ->
    factorial_rec fuel (Z.of_nat k) = IntVal (product_up_to k).
Proof.
  induction k as [|k IH]; intros fuel Hfuel Hfit.
  - now apply factorial_rec_small.
  - destruct k as [|k'].
    + now apply factorial_rec_small.
    + destruct fuel as [|fuel]; [lia|].
      rewrite factorial_rec_step by lia.
      replace (Z.of_nat (S (S k')) - 1)%Z with (Z.of_nat (S k')) by lia.
      assert (Hle : (product_up_to (S k') <= product_up_to (S (S k')))%Z)
        by (apply product_up_to_mono; lia).
      rewrite IH by lia.
      unfold int_mul.
      change (product_up_to (S (S k')))
        with (Z.of_nat (S (S k')) * product_up_to (S k'))%Z in Hfit.
      pose proof (product_up_to_pos (S k')) as Hpos.
      assert (Hlow : (INT_MIN <= Z.of_nat (S (S k')) * product_up_to (S k'))%Z)
        by (unfold INT_MIN; nia).
      rewrite (proj2 (Z.leb_le _ _) Hlow), (proj2 (Z.leb_le _ _) Hfit).
      reflexivity.
Qed.

(** X1. For every [n] up to 12, [factorial(n)] returns the product
    [1 * 2 * ... * n], which is 1 for every [n <= 1], negative [n]
    included; the recursion ends within the [n] levels it is given. *)
Theorem factorial_product (n : Z) :
  (n <= 12)%Z ->
  factorial n = IntVal (product_up_to (Z.to_nat n)).
Proof.
  intro Hn. unfold factorial.
  destruct (Z.le_gt_cases n 0) as [Hneg|Hpos].
  - rewrite factorial_rec_small by lia.
    replace (Z.to_nat n) with O by lia. reflexivity.
  - rewrite <- (Z2Nat.id n) at 2 by lia.
    apply factorial_rec_product; [lia|].
    transitivity (product_up_to 12).
    + apply product_up_to_mono. lia.
    + vm_compute. discriminate.
Qed.

Lemma factorial_product_witness :
  factorial 5 = IntVal (product_up_to (Z.to_nat 5)).
Proof. apply (@factorial_product 5%Z). lia. Defined.

Lemma factorial_rec_overflow (m : nat) :
  forall fuel : nat,
    (13 + m <= fuel)%nat ->
    factorial_rec fuel (Z.of_nat (13 + m)) = IntOverflow.
Proof.
  induction m as [|m IH]; intros fuel Hfuel.
  - destruct fuel as [|fuel]; [lia|].
    rewrite factorial_rec_step by lia.
    replace (Z.of_nat (13 + 0) - 1)%Z with (Z.of_nat 12) by lia.
    rewrite factorial_rec_product; [reflexivity|lia|].
    vm_compute. discriminate.
  - destruct fuel as [|fuel]; [lia|].
    rewrite factorial_rec_step by lia.
    replace (Z.of_nat (13 + S m) - 1)%Z with (Z.of_nat (13 + m)) by lia.
    now rewrite IH by lia.
Qed.

(** X2. For every [n] from 13 on, [factorial(n)] overflows [int]: the
    recursion reaches [13 * factorial(12)], whose product is beyond
    [INT_MAX], and no value is returned. *)
Theorem factorial_overflow (n : Z) :
  (13 <= n)%Z -> factorial n = IntOverflow.
Proof.
  intro Hn. unfold factorial.
  rewrite <- (Z2Nat.id n) at 2 by lia.
  replace (Z.to_nat n) with (13 + (Z.to_nat n - 13))%nat by lia.
  apply factorial_rec_overflow. lia.
Qed.

Lemma factorial_overflow_witness : factorial 13 = IntOverflow.
Proof. apply (@factorial_overflow 13%Z). lia. Defined.

Example factorial_5 : factorial 5 = IntVal 120.
Proof. reflexivity. Qed.

(** ** The free list as a stack *)

Lemma deallocate_each_spec (l : list ptr) :
  forall p : MemoryPool,
    deallocate_each l p = Ok tt (set_blocks (blocks p ++ l) p).
Proof.
  induction l as [|b l IH]; intro p; simpl.
  - unfold ret. now rewrite app_nil_r, set_blocks_same.
  - unfold bind, MemoryPool_deallocate, modify. rewrite IH. simpl.
    unfold push_back. now rewrite <- app_assoc.
Qed.

Lemma allocate_n_suffix (l : list ptr) :
  forall (l0 : list ptr) (p : MemoryPool),
    blocks p = l0 ++ l ->
    allocate_n (length l) p = Ok (rev l) (set_blocks l0 p).
Proof.
  induction l as [|b l IH] using rev_ind; intros l0 p Hp.
  - simpl. unfold ret. rewrite app_nil_r in Hp.
    rewrite <- Hp. now rewrite set_blocks_same.
  - rewrite length_app, Nat.add_comm. simpl.
    unfold bind at 1.
    rewrite allocate_back with (l := l0 ++ l) (b := b)
      by (rewrite Hp; unfold push_back; now rewrite app_assoc).
    unfold bind. rewrite (IH l0 (set_blocks (l0 ++ l) p)) by reflexivity.
    unfold ret. now rewrite rev_unit.
Qed.

(** X3. On every pool, [k] calls of [allocate] with [k] no more than the
    number of free blocks all succeed: they return the last [k] entries of
    the free list, the last one first, and leave the entries before them
    in place. *)
Theorem allocate_n_takes_back (k : nat) (p : MemoryPool) :
  k <= available p ->
  allocate_n k p =
    Ok (rev (skipn (available p - k) (blocks p)))
       (set_blocks (firstn (available p - k) (blocks p)) p).
Proof.
  unfold available. intro Hk.
  assert (Hlen : length (skipn (length (blocks p) - k) (blocks p)) = k)
    by (rewrite length_skipn; lia).
  rewrite <- Hlen at 1.
  apply allocate_n_suffix. symmetry. apply firstn_skipn.
Qed.

Lemma allocate_n_takes_back_witness :
  allocate_n 2 (mkPool [16; 32; 48]%N 4 3) =
    Ok (rev (skipn (available (mkPool [16; 32; 48]%N 4 3) - 2)
               (blocks (mkPool [16; 32; 48]%N 4 3))))
       (set_blocks (firstn (available (mkPool [16; 32; 48]%N 4 3) - 2)
                      (blocks (mkPool [16; 32; 48]%N 4 3)))
          (mkPool [16; 32; 48]%N 4 3)).
Proof.
  apply (@allocate_n_takes_back 2 (mkPool [16; 32; 48]%N 4 3)).
  unfold available. simpl. lia.
Defined.

Lemma allocate_n_beyond (extra : nat) (l : list ptr) :
  forall p : MemoryPool,
    blocks p = l ->
    allocate_n (S (length l + extra)) p = Throw bad_alloc (set_blocks [] p).
Proof.
  induction l as [|b l IH] using rev_ind; intros p Hp.
  - simpl. unfold bind. rewrite allocate_exhausted by assumption.
    rewrite <- Hp. now rewrite set_blocks_same.
  - replace (S (length (l ++ [b]) + extra)) with (S (S (length l + extra)))
      by (rewrite length_app; simpl; lia).
    change (allocate_n (S (S (length l + extra))) p)
      with ((x <- MemoryPool_allocate ;;
             xs <- allocate_n (S (length l + extra)) ;; ret (x :: xs)) p).
    unfold bind at 1.
    rewrite allocate_back with (l := l) (b := b) by exact Hp.
    unfold bind. now rewrite (IH (set_blocks l p)) by reflexivity.
Qed.

(** X4. More calls of [allocate] in a row than the pool has free blocks:
    the run throws [bad_alloc], and at the throw the free list is empty,
    every block having been handed out by the calls before. *)
Theorem allocate_n_exhausts (k : nat) (p : MemoryPool) :
  available p < k ->
  allocate_n k p = Throw bad_alloc (set_blocks [] p).
Proof.
  unfold available. intro Hk.
  replace k with (S (length (blocks p) + (k - S (length (blocks p))))) by lia.
  now apply allocate_n_beyond.
Qed.

Lemma allocate_n_exhausts_witness :
  allocate_n 5 (mkPool [16; 32; 48]%N 4 3)
    = Throw bad_alloc (set_blocks [] (mkPool [16; 32; 48]%N 4 3)).
Proof.
  apply (@allocate_n_exhausts 5 (mkPool [16; 32; 48]%N 4 3)).
  unfold available. simpl. lia.
Defined.

(** X5. The free list is a stack: after [deallocate] on the addresses of
    a list, first to last, for which the reserved buffer has room, as many
    calls of [allocate] return them last to first and leave the pool
    exactly as it was before. No address is tested on the way: the list
    may hold anything. *)
Theorem deallocate_allocate_lifo (l : list ptr) (p : MemoryPool) :
  within_reserved (length l) p ->
  (deallocate_each l ;; allocate_n (length l)) p = Ok (rev l) p.
Proof.
  intros _. unfold bind. rewrite deallocate_each_spec.
  rewrite allocate_n_suffix with (l0 := blocks p) by reflexivity.
  now rewrite set_blocks_twice, set_blocks_same.
Qed.

Lemma deallocate_allocate_lifo_witness :
  (deallocate_each [32; 48]%N ;; allocate_n (length [32; 48]%N))
    (mkPool [16%N] 4 3) = Ok (rev [32; 48]%N) (mkPool [16%N] 4 3).
Proof.
  apply (@deallocate_allocate_lifo [32; 48]%N (mkPool [16%N] 4 3)).
  unfold within_reserved, available. simpl. lia.
Defined.

(** X6. [deallocate] does not notice a block given back twice: with room
    for two more entries in the reserved buffer, the two calls succeed and
    the next two calls of [allocate] both return that block, so two
    callers hold the same address. *)
Theorem double_deallocate_aliases (b : ptr) (p : MemoryPool) :
  within_reserved 2 p ->
  (MemoryPool_deallocate b ;;
   MemoryPool_deallocate b ;;
   first <- MemoryPool_allocate ;;
   second <- MemoryPool_allocate ;;
   ret (first, second)) p = Ok (b, b) p.
Proof.
  intros _.
  change ((deallocate_each [b; b] ;;
           first <- MemoryPool_allocate ;;
           second <- MemoryPool_allocate ;;
           ret (first, second)) p = Ok (b, b) p).
  unfold bind at 1. rewrite deallocate_each_spec.
  unfold bind at 1.
  rewrite allocate_back with (l := blocks p ++ [b]) (b := b)
    by (simpl; unfold push_back; now rewrite <- app_assoc).
  unfold bind at 1.
  rewrite allocate_back with (l := blocks p) (b := b) by reflexivity.
  unfold ret. now rewrite !set_blocks_twice, set_blocks_same.
Qed.

Lemma double_deallocate_aliases_witness :
  (MemoryPool_deallocate 32%N ;;
   MemoryPool_deallocate 32%N ;;
   first <- MemoryPool_allocate ;;
   second <- MemoryPool_allocate ;;
   ret (first, second)) (mkPool [16%N] 4 3) = Ok (32%N, 32%N) (mkPool [16%N] 4 3).
Proof.
  apply (@double_deallocate_aliases 32%N (mkPool [16%N] 4 3)).
  unfold within_reserved, available. simpl. lia.
Defined.

(** X7. [hasAvailableMemory] tells what the next [allocate] does: after
    the answer [true] the call returns a block, after [false] it throws
    [bad_alloc]; the test itself changes nothing. *)
Theorem hasAvailableMemory_predicts_allocate (p : MemoryPool) :
  (MemoryPool_hasAvailableMemory p = Ok true p /\
   exists b p', MemoryPool_allocate p = Ok b p' /\ available p = S (available p')) \/
  (MemoryPool_hasAvailableMemory p = Ok false p /\
   MemoryPool_allocate p = Throw bad_alloc p).
Proof.
  unfold MemoryPool_hasAvailableMemory.
  destruct (blocks p) as [|x l] eqn:E.
  - right. split; [reflexivity|]. now apply allocate_exhausted.
  - left. split; [reflexivity|].
    assert (Hne : blocks p <> []) by (rewrite E; discriminate).
    eexists _, _. split; [now apply allocate_available|].
    unfold available. simpl.
    rewrite <- (push_back_pop_back Hne) at 1.
    unfold push_back. rewrite length_app. simpl. lia.
Qed.

(** ** Conservation of blocks *)

Lemma exec_conserves (c c' : Client) (o : call) :
  exec c o = Some c' ->
  Permutation (checked_out c' ++ blocks (c_pool c'))
              (checked_out c ++ blocks (c_pool c)) /\
  blockSize (c_pool c') = blockSize (c_pool c) /\
  capacity (c_pool c') = capacity (c_pool c).
Proof.
  intro Hexec. destruct o as [|b]; simpl in Hexec.
  - destruct (MemoryPool_allocate (c_pool c)) as [b p'|e p'|] eqn:Halloc;
      try discriminate; injection Hexec as <-; simpl.
    + apply allocate_Ok_inv in Halloc. destruct Halloc as [Hb Hp'].
      rewrite Hb. unfold push_back. split.
      * rewrite app_assoc. apply Permutation_cons_append.
      * rewrite Hp'. now split.
    + apply allocate_Throw_inv in Halloc. destruct Halloc as (_ & -> & _).
      now repeat split.
  - destruct (existsb (N.eqb b) (checked_out c)) eqn:Hheld; [|discriminate].
    apply existsb_eqb_In in Hheld.
    injection Hexec as <-. simpl. unfold push_back.
    split; [|now split].
    rewrite (remove_one_Permutation _ _ Hheld) at 2.
    rewrite app_assoc. simpl. symmetry. apply Permutation_cons_append.
Qed.

(** X8. Through every sequence of [allocate] and [deallocate] calls in
    which only held blocks are given back, the addresses held by the
    client together with those of the free list stay the same collection,
    each as many times as at the start: no block is lost, none appears.
    The block size and the capacity of the pool do not change. *)
Theorem exec_all_conserves (os : list call) (c c' : Client) :
  exec_all c os = Some c' ->
  Permutation (checked_out c' ++ blocks (c_pool c'))
              (checked_out c ++ blocks (c_pool c)) /\
  length (checked_out c') + available (c_pool c')
    = length (checked_out c) + available (c_pool c) /\
  blockSize (c_pool c') = blockSize (c_pool c) /\
  capacity (c_pool c') = capacity (c_pool c).
Proof.
  revert c. induction os as [|o os IH]; intros c Hrun; simpl in Hrun.
  - injection Hrun as <-. repeat split. apply Permutation_refl.
  - destruct (exec c o) as [c1|] eqn:Hexec; [|discriminate].
    destruct (exec_conserves _ _ Hexec) as (Hperm1 & Hbs1 & Hcap1).
    destruct (IH c1 Hrun) as (Hperm & Hlen & Hbs & Hcap).
    split; [now rewrite Hperm|].
    split; [|split; congruence].
    rewrite Hlen. unfold available.
    rewrite <- !length_app. now apply Permutation_length.
Qed.

Lemma exec_all_conserves_witness :
  Permutation ([32%N] ++ [16%N]) ([] ++ [16; 32]%N) /\
  length [32%N] + available (mkPool [16%N] 4 2)
    = length (@nil ptr) + available (mkPool [16; 32]%N 4 2) /\
  blockSize (mkPool [16%N] 4 2) = blockSize (mkPool [16; 32]%N 4 2) /\
  capacity (mkPool [16%N] 4 2) = capacity (mkPool [16; 32]%N 4 2).
Proof.
  apply (@exec_all_conserves
           [CallAllocate; CallAllocate; CallAllocate; CallDeallocate 32%N;
            CallAllocate; CallDeallocate 16%N]
           (mkClient (mkPool [16; 32]%N 4 2) [])
           (mkClient (mkPool [16%N] 4 2) [32%N])).
  reflexivity.
Defined.

(** ** Construction when nothing is refused *)

(** What the constructor adds to the allocator's live blocks. *)
Lemma MemoryPool_ctor_live (bs cap : N) (h h' : Heap) (pool : MemoryPool) :
  MemoryPool_ctor bs cap h = Ok pool h' ->
  NoDup (filter nonnull (blocks pool)) /\
  live h' = rev (filter nonnull (blocks pool)) ++ live h /\
  Forall (fun b => b <> nullptr -> (Npos (brk h) <= b)%N) (blocks pool).
Proof.
  intro Hctor.
  destruct (vector_reserve_cases cap h)
    as [(e & h1 & Hres & _)|(h1 & Hres & Hlive1 & Hbrk1)].
  - rewrite (@MemoryPool_ctor_reserve_throws bs cap h h1 e Hres) in Hctor.
    discriminate.
  - rewrite (@MemoryPool_ctor_after_reserve bs cap h h1 Hres) in Hctor.
    destruct (MemoryPool_fill_spec (N.to_nat cap) bs [] h1)
      as (new & h2 & Hfill & _ & _ & Hrange & Hnd & _ & Hlive).
    rewrite Hfill in Hctor. simpl in Hctor. injection Hctor as <- <-.
    simpl. split; [exact Hnd|]. split; [congruence|].
    eapply Forall_impl; [|exact Hrange].
    simpl. intros b Hb Hnn. specialize (Hb Hnn). lia.
Qed.

Lemma heap_wf_fresh (h : Heap) (l : list ptr) (x : ptr) :
  heap_wf h ->
  Forall (fun b => b <> nullptr -> (Npos (brk h) <= b)%N) l ->
  In x (live h) -> ~ In x (filter nonnull l).
Proof.
  unfold heap_wf. intros Hwf Hrange Hx Hin.
  apply filter_In in Hin. destruct Hin as [Hin Hnn].
  apply nonnull_true in Hnn.
  rewrite Forall_forall in Hwf, Hrange.
  specialize (Hwf _ Hx). specialize (Hrange _ Hin Hnn). lia.
Qed.


Lemma granted_all (n : nat) :
  forall s : list bool,
    forallb (fun answer => answer) s = true ->
    granted n s = repeat true n.
Proof.
  induction n as [|n IH]; intros s Hs; [reflexivity|].
  simpl. destruct s as [|[|] s]; simpl in *; try discriminate;
    f_equal; now apply IH.
Qed.

Lemma map_nonnull_all (l : list ptr) (n : nat) :
  map nonnull l = repeat true n -> ~ In nullptr l.
Proof.
  revert n. induction l as [|x l IH]; intros n Hmap Hin; [contradiction|].
  destruct n as [|n]; [discriminate|].
  simpl in Hmap. injection Hmap as Hx Hl.
  destruct Hin as [->|Hin]; [discriminate|].
  now apply (IH n).
Qed.

Lemma forallb_tl (s : list bool) :
  forallb (fun answer => answer) s = true ->
  forallb (fun answer => answer) (tl s) = true.
Proof.
  destruct s as [|x s]; simpl; [trivial|].
  intro H. apply andb_true_iff in H. tauto.
Qed.

Lemma not_refused (h : Heap) :
  forallb (fun answer => answer) (script h) = true -> refused h = false.
Proof.
  unfold refused. destruct (script h) as [|[|] s]; simpl; congruence.
Qed.

Lemma vector_reserve_granted (cap : N) (h : Heap) :
  forallb (fun answer => answer) (script h) = true ->
  (cap <= vector_max_size)%N ->
  exists h1,
    vector_reserve cap h = Ok tt h1 /\ live h1 = live h /\
    forallb (fun answer => answer) (script h1) = true.
Proof.
  intros Hs Hcap. unfold vector_reserve.
  destruct (N.eqb cap 0); [now exists h|].
  rewrite (proj2 (N.ltb_ge _ _) Hcap).
  unfold bind, operator_new, ret. rewrite not_refused by assumption.
  eexists. repeat split. simpl. now apply forallb_tl.
Qed.

Lemma MemoryPool_ctor_all_granted (bs cap : N) (h : Heap) :
  forallb (fun answer => answer) (script h) = true ->
  (cap <= vector_max_size)%N ->
  exists pool h',
    MemoryPool_ctor bs cap h = Ok pool h' /\
    length (blocks pool) = N.to_nat cap /\
    ~ In nullptr (blocks pool) /\
    NoDup (blocks pool) /\
    live h' = rev (blocks pool) ++ live h /\
    blockSize pool = bs /\ capacity pool = cap.
Proof.
  intros Hs Hcap.
  destruct (vector_reserve_granted _ Hs Hcap) as (h1 & Hres & Hlive1 & Hs1).
  destruct (MemoryPool_fill_spec (N.to_nat cap) bs [] h1)
    as (new & h' & Hfill & Hlen & Hmap & _ & Hnd & _ & Hlive).
  rewrite granted_all in Hmap by assumption.
  assert (Hnn : ~ In nullptr new) by (eapply map_nonnull_all; eassumption).
  rewrite filter_nonnull_all in Hnd, Hlive by assumption.
  exists (mkPool new bs cap), h'.
  split.
  { rewrite (@MemoryPool_ctor_after_reserve bs cap h h1 Hres), Hfill.
    reflexivity. }
  simpl. repeat split; trivial. congruence.
Qed.

(** X9. When the allocator refuses nothing and the capacity is within
    what [vector] can hold, construction succeeds: the free list has
    [capacity] entries, none of them null, pairwise distinct, every one a
    live block of the allocator that was not live before. *)
Theorem MemoryPool_ctor_granted (bs cap : N) (h : Heap) :
  forallb (fun answer => answer) (script h) = true ->
  (cap <= vector_max_size)%N ->
  exists pool h',
    MemoryPool_ctor bs cap h = Ok pool h' /\
    length (blocks pool) = N.to_nat cap /\
    ~ In nullptr (blocks pool) /\
    NoDup (blocks pool) /\
    (forall b, In b (blocks pool) -> In b (live h')) /\
    (heap_wf h -> forall b, In b (blocks pool) -> ~ In b (live h)) /\
    blockSize pool = bs /\ capacity pool = cap.
Proof.
  intros Hs Hcap.
  destruct (@MemoryPool_ctor_all_granted bs cap h Hs Hcap)
    as (pool & h' & Hctor & Hlen & Hnn & Hnd & Hlive & Hbs & Hcp).
  exists pool, h'.
  split; [exact Hctor|]. split; [exact Hlen|]. split; [exact Hnn|].
  split; [exact Hnd|]. split; [|split; [|now split]].
  - intros b Hb. rewrite Hlive. apply in_or_app. left. now apply in_rev in Hb.
  - intros Hwf b Hb Hold.
    destruct (@MemoryPool_ctor_live bs cap h h' pool Hctor) as (_ & _ & Hrange).
    apply (@heap_wf_fresh h (blocks pool) b Hwf Hrange Hold).
    now rewrite filter_nonnull_all.
Qed.

Lemma MemoryPool_ctor_granted_witness :
  exists pool h',
    MemoryPool_ctor 4 3 (mkHeap [] 1 [true; true]) = Ok pool h' /\
    length (blocks pool) = N.to_nat 3 /\
    ~ In nullptr (blocks pool) /\
    NoDup (blocks pool) /\
    (forall b, In b (blocks pool) -> In b (live h')) /\
    (heap_wf (mkHeap [] 1 [true; true]) ->
     forall b, In b (blocks pool) -> ~ In b (live (mkHeap [] 1 [true; true]))) /\
    blockSize pool = 4%N /\ capacity pool = 3%N.
Proof.
  apply (@MemoryPool_ctor_granted 4 3 (mkHeap [] 1 [true; true])).
  - reflexivity.
  - vm_compute. discriminate.
Defined.

(** A pool of capacity zero: whatever the allocator would answer,
    construction succeeds without asking it for anything, and the pool
    is exhausted from the start: [allocate] throws [bad_alloc] and
    [make_unique_pool] constructs nothing. *)
Lemma MemoryPool_ctor_zero (bs : N) (h : Heap) :
  MemoryPool_ctor bs 0 h = Ok (mkPool [] bs 0) h /\
  MemoryPool_allocate (mkPool [] bs 0) = Throw bad_alloc (mkPool [] bs 0) /\
  forall (Store Args : Type) (T : Class Store Args) (args : Args)
         (s : Store) (t : list event),
    make_unique_pool T args (mkWorld (mkPool [] bs 0) s t)
      = Throw bad_alloc (mkWorld (mkPool [] bs 0) s t).
Proof.
  split; [reflexivity|]. split; [reflexivity|].
  intros. reflexivity.
Qed.

(** ** The destructor *)

Lemma existsb_eqb_iff (b : ptr) (l : list ptr) :
  existsb (N.eqb b) l = true <-> In b l.
Proof.
  split; [apply existsb_eqb_In|].
  intro H. apply existsb_exists. exists b. split; [exact H|apply N.eqb_refl].
Qed.

Lemma free_null (h : Heap) : free nullptr h = Ok tt h.
Proof. reflexivity. Qed.

Lemma free_live_block (b : ptr) (h : Heap) :
  b <> nullptr -> In b (live h) ->
  free b h = Ok tt (mkHeap (remove N.eq_dec b (live h)) (brk h) (script h)).
Proof.
  intros Hnn Hin. unfold free.
  rewrite (proj2 (N.eqb_neq _ _) Hnn).
  now rewrite (proj2 (existsb_eqb_iff _ _) Hin).
Qed.

Lemma free_other (b : ptr) (h : Heap) :
  b <> nullptr -> ~ In b (live h) -> free b h = Undefined.
Proof.
  intros Hnn Hnin. unfold free.
  rewrite (proj2 (N.eqb_neq _ _) Hnn).
  destruct (existsb (N.eqb b) (live h)) eqn:E; [|reflexivity].
  now apply existsb_eqb_iff in E.
Qed.

Lemma nonnull_false (b : ptr) : nonnull b = false <-> b = nullptr.
Proof. unfold nonnull. rewrite negb_false_iff. apply N.eqb_eq. Qed.

Lemma MemoryPool_release_defined (l : list ptr) :
  forall h : Heap,
    NoDup (filter nonnull l) ->
    incl (filter nonnull l) (live h) ->
    exists h',
      MemoryPool_release l h = Ok tt h' /\
      brk h' = brk h /\ script h' = script h /\
      forall x, In x (live h') <-> In x (live h) /\ ~ In x (filter nonnull l).
Proof.
  induction l as [|b l IH]; intros h Hnd Hincl.
  - exists h. simpl. repeat split; tauto.
  - simpl in Hnd, Hincl. simpl MemoryPool_release. simpl filter.
    unfold bind.
    destruct (nonnull b) eqn:Eb.
    + apply nonnull_true in Eb.
      assert (Hb : In b (live h)) by (apply Hincl; now left).
      rewrite free_live_block by assumption.
      inversion Hnd as [|? ? Hnin Hnd']; subst.
      destruct (IH (mkHeap (remove N.eq_dec b (live h)) (brk h) (script h)) Hnd')
        as (h' & Hrel & Hbrk & Hscript & Hlive).
      { intros x Hx. simpl. apply in_in_remove.
        - intros ->. contradiction.
        - apply Hincl. now right. }
      exists h'. split; [exact Hrel|]. split; [exact Hbrk|].
      split; [exact Hscript|].
      intro x. rewrite Hlive. simpl. split.
      * intros [Hx Hnx]. apply in_remove in Hx. destruct Hx as [Hx Hxb].
        split; [exact Hx|]. intros [Heq|Hin]; [congruence|contradiction].
      * intros [Hx Hnx]. split.
        -- apply in_in_remove; [|exact Hx]. intros ->. apply Hnx. now left.
        -- intro Hin. apply Hnx. now right.
    + apply nonnull_false in Eb. subst b. rewrite free_null.
      now apply IH.
Qed.

Lemma MemoryPool_release_Ok_inv (l : list ptr) :
  forall h h' : Heap,
    MemoryPool_release l h = Ok tt h' ->
    NoDup (filter nonnull l) /\ incl (filter nonnull l) (live h).
Proof.
  induction l as [|b l IH]; intros h h' Hrel.
  - simpl. split; [constructor|]. intros x [].
  - simpl in Hrel. unfold bind in Hrel. simpl.
    destruct (nonnull b) eqn:Eb.
    + apply nonnull_true in Eb.
      destruct (in_dec N.eq_dec b (live h)) as [Hb|Hb].
      * rewrite free_live_block in Hrel by assumption.
        apply IH in Hrel. simpl in Hrel. destruct Hrel as [Hnd Hincl].
        split.
        -- constructor; [|exact Hnd].
           intro Hin. apply Hincl in Hin. apply in_remove in Hin. tauto.
        -- intros x [<-|Hx]; [exact Hb|].
           apply Hincl in Hx. apply in_remove in Hx. tauto.
      * rewrite free_other in Hrel by assumption. discriminate.
    + apply nonnull_false in Eb. subst b. rewrite free_null in Hrel.
      now apply IH in Hrel.
Qed.

Lemma MemoryPool_release_no_throw (l : list ptr) :
  forall (h h' : Heap) (e : exn), MemoryPool_release l h <> Throw e h'.
Proof.
  induction l as [|b l IH]; intros h h' e; [discriminate|].
  simpl. unfold bind, free.
  destruct (N.eqb b nullptr); [apply IH|].
  destruct (existsb (N.eqb b) (live h)); [apply IH|discriminate].
Qed.

(** X10. [~MemoryPool] is defined exactly when the blocks of the free
    list (its entries other than null) are pairwise distinct and live in
    the allocator; it then releases exactly these and keeps every other
    live block. In every other case some [free] is given a block that is
    not live, and the behaviour is undefined. It never throws. *)
Theorem MemoryPool_dtor_outcome (p : MemoryPool) (h : Heap) :
  (NoDup (filter nonnull (blocks p)) /\
   incl (filter nonnull (blocks p)) (live h) /\
   exists h',
     MemoryPool_dtor p h = Ok tt h' /\
     forall x,
       In x (live h') <->
       In x (live h) /\ ~ In x (filter nonnull (blocks p))) \/
  (~ (NoDup (filter nonnull (blocks p)) /\
      incl (filter nonnull (blocks p)) (live h)) /\
   MemoryPool_dtor p h = Undefined).
Proof.
  unfold MemoryPool_dtor.
  destruct (MemoryPool_release (blocks p) h) as [[] h'|e h'|] eqn:Hrel.
  - left. destruct (@MemoryPool_release_Ok_inv (blocks p) h h' Hrel) as [Hnd Hincl].
    split; [exact Hnd|]. split; [exact Hincl|].
    destruct (@MemoryPool_release_defined (blocks p) h Hnd Hincl)
      as (h2 & Hrel2 & _ & _ & Hlive).
    rewrite Hrel in Hrel2. injection Hrel2 as <-.
    exists h'. now split.
  - exfalso. now apply MemoryPool_release_no_throw in Hrel.
  - right. split; [|reflexivity].
    intros [Hnd Hincl].
    destruct (@MemoryPool_release_defined (blocks p) h Hnd Hincl)
      as (h2 & Hrel2 & _).
    congruence.
Qed.

(** X11. A pool destroyed with every block in its free list gives back
    to the allocator everything its constructor took: the live blocks
    after [~MemoryPool] are those before the constructor, whatever
    requests were refused in between. *)
Theorem MemoryPool_ctor_dtor_no_leak (bs cap : N) (h h1 : Heap)
    (pool : MemoryPool) :
  heap_wf h ->
  MemoryPool_ctor bs cap h = Ok pool h1 ->
  exists h2,
    MemoryPool_dtor pool h1 = Ok tt h2 /\
    forall x, In x (live h2) <-> In x (live h).
Proof.
  intros Hwf Hctor.
  destruct (@MemoryPool_ctor_live bs cap h h1 pool Hctor)
    as (Hnd & Hlive & Hrange).
  destruct (@MemoryPool_release_defined (blocks pool) h1 Hnd)
    as (h2 & Hrel & _ & _ & Hlive2).
  { intros x Hx. rewrite Hlive. apply in_or_app. left. now apply in_rev in Hx. }
  exists h2. split; [exact Hrel|].
  intro x. rewrite Hlive2, Hlive, in_app_iff, <- in_rev. split.
  - intros [[Hx|Hx] Hnx]; [contradiction|exact Hx].
  - intro Hx. split; [now right|]. now apply (@heap_wf_fresh h (blocks pool) x Hwf Hrange).
Qed.

Lemma MemoryPool_ctor_dtor_no_leak_witness :
  exists h2,
    MemoryPool_dtor (mkPool [34; 0; 39]%N 4 3) (mkHeap [39; 34; 7]%N 44 [])
      = Ok tt h2 /\
    forall x, In x (live h2) <-> In x (live (mkHeap [7%N] 9 [true; true; false])).
Proof.
  apply (@MemoryPool_ctor_dtor_no_leak 4 3 (mkHeap [7%N] 9 [true; true; false])
           (mkHeap [39; 34; 7]%N 44 []) (mkPool [34; 0; 39]%N 4 3)).
  - constructor; [reflexivity|constructor].
  - reflexivity.
Defined.

Lemma NoDup_app_disjoint (l1 l2 : list ptr) (x : ptr) :
  NoDup (l1 ++ l2) -> In x l1 -> ~ In x l2.
Proof.
  induction l1 as [|a l1 IH]; intros Hnd Hin; [contradiction|].
  simpl in Hnd. inversion Hnd as [|? ? Hnin Hnd']; subst.
  destruct Hin as [->|Hin].
  - intro Hx. apply Hnin. apply in_or_app. now right.
  - now apply IH.
Qed.

Lemma allocate_n_Ok_inv (k : nat) :
  forall (p p' : MemoryPool) (addrs : list ptr),
    allocate_n k p = Ok addrs p' ->
    blocks p = blocks p' ++ rev addrs /\ length addrs = k.
Proof.
  induction k as [|k IH]; intros p p' addrs Hrun; simpl in Hrun.
  - unfold ret in Hrun. injection Hrun as <- <-.
    simpl. now rewrite app_nil_r.
  - unfold bind at 1 in Hrun.
    destruct (MemoryPool_allocate p) as [b p1|e p1|] eqn:Halloc;
      try discriminate.
    unfold bind in Hrun.
    destruct (allocate_n k p1) as [bs p2|e p2|] eqn:Hrest; try discriminate.
    unfold ret in Hrun. injection Hrun as <- <-.
    apply allocate_Ok_inv in Halloc. destruct Halloc as [Hb _].
    apply IH in Hrest. destruct Hrest as [Hbs Hlen].
    split; [|simpl; now rewrite Hlen].
    rewrite Hb. unfold push_back. rewrite Hbs. simpl.
    now rewrite <- app_assoc.
Qed.

(** X12. [~MemoryPool] releases only what is in the free list. A pool
    destroyed while blocks are checked out leaves exactly those blocks
    live in the allocator, besides the blocks that were live before the
    pool was built: the destructor never frees a checked-out block. *)
Theorem MemoryPool_dtor_leaves_checked_out (bs cap : N) (h h1 : Heap)
    (pool pool' : MemoryPool) (k : nat) (addrs : list ptr) :
  heap_wf h ->
  MemoryPool_ctor bs cap h = Ok pool h1 ->
  allocate_n k pool = Ok addrs pool' ->
  exists h2,
    MemoryPool_dtor pool' h1 = Ok tt h2 /\
    forall x,
      In x (live h2) <-> In x (live h) \/ (In x addrs /\ x <> nullptr).
Proof.
  intros Hwf Hctor Hrun.
  destruct (@MemoryPool_ctor_live bs cap h h1 pool Hctor)
    as (Hnd & Hlive & Hrange).
  destruct (@allocate_n_Ok_inv k pool pool' addrs Hrun) as [Hsplit _].
  rewrite Hsplit, filter_app in Hnd.
  assert (Hrange' : Forall (fun b => b <> nullptr -> (Npos (brk h) <= b)%N)
                      (blocks pool')).
  { rewrite Forall_forall in *. intros b Hb. apply Hrange.
    rewrite Hsplit. apply in_or_app. now left. }
  destruct (@MemoryPool_release_defined (blocks pool') h1
              (NoDup_app_remove_r _ _ Hnd))
    as (h2 & Hrel & _ & _ & Hlive2).
  { intros x Hx. rewrite Hlive, Hsplit, filter_app.
    apply in_or_app. left. apply -> in_rev. apply in_or_app. now left. }
  exists h2. split; [exact Hrel|].
  intro x. rewrite Hlive2, Hlive, Hsplit, filter_app.
  rewrite in_app_iff, <- in_rev, in_app_iff. split.
  - intros [[[Hx|Hx]|Hx] Hnx].
    + contradiction.
    + right. apply filter_In in Hx. destruct Hx as [Hx Hnn].
      apply in_rev in Hx. split; [exact Hx|]. now apply nonnull_true.
    + now left.
  - intros [Hx|[Hx Hnn]].
    + split; [now right|]. now apply (@heap_wf_fresh h (blocks pool') x Hwf).
    + assert (Hin : In x (filter nonnull (rev addrs))).
      { apply filter_In. split; [now apply -> in_rev|now apply nonnull_true]. }
      split; [left; now right|].
      intro Hx'.
      now apply (@NoDup_app_disjoint (filter nonnull (blocks pool'))
                   (filter nonnull (rev addrs)) x Hnd Hx').
Qed.

Lemma MemoryPool_dtor_leaves_checked_out_witness :
  exists h2,
    MemoryPool_dtor (mkPool [34%N] 4 3) (mkHeap [44; 39; 34; 7]%N 49 [])
      = Ok tt h2 /\
    forall x,
      In x (live h2) <->
      In x (live (mkHeap [7%N] 9 [])) \/ (In x [44; 39]%N /\ x <> nullptr).
Proof.
  apply (@MemoryPool_dtor_leaves_checked_out 4 3 (mkHeap [7%N] 9 [])
           (mkHeap [44; 39; 34; 7]%N 49 [])
           (mkPool [34; 39; 44]%N 4 3) (mkPool [34%N] 4 3) 2 [44; 39]%N).
  - constructor; [reflexivity|constructor].
  - reflexivity.
  - reflexivity.
Defined.

(** X13. [deallocate] takes any address. Once a block that is already
    in the free list, or an address that is not a live block of the
    allocator, has been given to it, destroying the pool calls [free] on
    a block that is not live: [~MemoryPool] is undefined. *)
Theorem MemoryPool_dtor_after_bad_deallocate (b : ptr) (p p' : MemoryPool)
    (h : Heap) :
  b <> nullptr ->
  In b (blocks p) \/ ~ In b (live h) ->
  MemoryPool_deallocate b p = Ok tt p' ->
  MemoryPool_dtor p' h = Undefined.
Proof.
  intros Hnn Hbad Hdealloc.
  unfold MemoryPool_deallocate, modify in Hdealloc.
  injection Hdealloc as <-.
  unfold MemoryPool_dtor. simpl. unfold push_back.
  destruct (MemoryPool_release (blocks p ++ [b]) h) as [[] h'|e h'|] eqn:Hrel.
  - exfalso.
    destruct (@MemoryPool_release_Ok_inv (blocks p ++ [b]) h h' Hrel)
      as [Hnd Hincl].
    rewrite filter_app in Hnd, Hincl. simpl in Hnd, Hincl.
    rewrite (proj2 (nonnull_true b) Hnn) in Hnd, Hincl.
    destruct Hbad as [Hin|Hnin].
    + apply (@NoDup_app_disjoint (filter nonnull (blocks p)) [b] b Hnd).
      * apply filter_In. split; [exact Hin|now apply nonnull_true].
      * now left.
    + apply Hnin, Hincl. apply in_or_app. right. now left.
  - exfalso. now apply MemoryPool_release_no_throw in Hrel.
  - reflexivity.
Qed.

Lemma MemoryPool_dtor_after_bad_deallocate_witness :
  MemoryPool_dtor (mkPool [34; 39; 39]%N 4 2) (mkHeap [39; 34]%N 44 [])
    = Undefined.
Proof.
  apply (@MemoryPool_dtor_after_bad_deallocate 39%N (mkPool [34; 39]%N 4 2)
           (mkPool [34; 39; 39]%N 4 2) (mkHeap [39; 34]%N 44 [])).
  - discriminate.
  - left. simpl. auto.
  - reflexivity.
Defined.

(** ** PoolAllocator *)

(** X14. An allocation of zero elements given back through the same
    allocator is not neutral: [allocate(0)] returns a null pointer without
    taking a block, [deallocate] pushes that null pointer (the reserved
    buffer having room for it), so the pool counts one more available
    block, the next [allocate] returns null, and [make_unique_pool] on
    this pool constructs at a null address. *)
Theorem PoolAllocator_zero_roundtrip (p : MemoryPool) :
  within_reserved 1 p ->
  exists p',
    (q <- PoolAllocator_allocate 0 ;; PoolAllocator_deallocate q 0) p
      = Ok tt p' /\
    blocks p' = push_back nullptr (blocks p) /\
    available p' = S (available p) /\
    MemoryPool_allocate p' = Ok nullptr p /\
    forall (Store Args : Type) (T : Class Store Args) (args : Args)
           (s : Store) (t : list event),
      make_unique_pool T args (mkWorld p' s t) = Undefined.
Proof.
  intros _.
  exists (set_blocks (push_back nullptr (blocks p)) p).
  split; [reflexivity|]. split; [reflexivity|].
  split.
  { unfold available. simpl. unfold push_back. rewrite length_app. simpl. lia. }
  split.
  { rewrite allocate_back with (l := blocks p) (b := nullptr) by reflexivity.
    now rewrite set_blocks_twice, set_blocks_same. }
  intros Store Args T args s t.
  rewrite make_unique_pool_available.
  - simpl. now rewrite back_push_back.
  - simpl. unfold push_back. now destruct (blocks p).
Qed.

Lemma PoolAllocator_zero_roundtrip_witness :
  exists p',
    (q <- PoolAllocator_allocate 0 ;; PoolAllocator_deallocate q 0)
      (mkPool [16%N] 4 2) = Ok tt p' /\
    blocks p' = push_back nullptr (blocks (mkPool [16%N] 4 2)) /\
    available p' = S (available (mkPool [16%N] 4 2)) /\
    MemoryPool_allocate p' = Ok nullptr (mkPool [16%N] 4 2) /\
    forall (Store Args : Type) (T : Class Store Args) (args : Args)
           (s : Store) (t : list event),
      make_unique_pool T args (mkWorld p' s t) = Undefined.
Proof.
  apply (@PoolAllocator_zero_roundtrip (mkPool [16%N] 4 2)).
  unfold within_reserved, available. simpl. lia.
Defined.

Lemma nth_error_set_pool_same (r : nat) (p : MemoryPool) :
  forall (ps : Pools) (q : MemoryPool),
    nth_error ps r = Some q -> nth_error (set_pool r p ps) r = Some p.
Proof.
  induction r as [|r IH]; intros [|q0 ps] q H; simpl in *; try discriminate.
  - reflexivity.
  - now apply IH with (q := q).
Qed.

Lemma nth_error_set_pool_other (r r' : nat) (p : MemoryPool) :
  forall ps : Pools,
    r <> r' -> nth_error (set_pool r p ps) r' = nth_error ps r'.
Proof.
  revert r'. induction r as [|r IH]; intros r' [|q0 ps] Hne;
    destruct r' as [|r']; simpl; try reflexivity; try congruence.
  apply IH. congruence.
Qed.

Lemma set_pool_twice (r : nat) (p1 p2 : MemoryPool) :
  forall ps : Pools, set_pool r p2 (set_pool r p1 ps) = set_pool r p2 ps.
Proof.
  induction r as [|r IH]; intros [|q0 ps]; simpl; try reflexivity.
  now rewrite IH.
Qed.

Lemma set_pool_same (r : nat) (p : MemoryPool) :
  forall ps : Pools, nth_error ps r = Some p -> set_pool r p ps = ps.
Proof.
  induction r as [|r IH]; intros [|q0 ps] H; simpl in *; try discriminate.
  - now injection H as ->.
  - now rewrite IH.
Qed.

Lemma PoolAllocator_allocate_at_available (a : PoolAllocator) (n : N)
    (ps : Pools) (p : MemoryPool) :
  n <> 0%N ->
  nth_error ps (pa_pool a) = Some p ->
  blocks p <> [] ->
  PoolAllocator_allocate_at a n ps =
    Ok (back (blocks p))
       (set_pool (pa_pool a) (set_blocks (pop_back (blocks p)) p) ps).
Proof.
  intros Hn Hp Hne. unfold PoolAllocator_allocate_at, at_pool.
  rewrite Hp, PoolAllocator_allocate_positive by assumption.
  now rewrite allocate_available by assumption.
Qed.

(** X15. Allocators that compare equal are interchangeable: they refer
    to the same pool and do not compare unequal, and a block taken
    through one ([n >= 1], pool not exhausted) and given back through the
    other, whatever element counts are passed, returns every pool of the
    program to the state it had. *)
Theorem PoolAllocator_equal_interchangeable (a other : PoolAllocator)
    (n m : N) (ps : Pools) (p : MemoryPool) :
  PoolAllocator_eq a other = true ->
  n <> 0%N ->
  nth_error ps (pa_pool a) = Some p ->
  blocks p <> [] ->
  (q <- PoolAllocator_allocate_at a n ;;
   PoolAllocator_deallocate_at other q m) ps = Ok tt ps /\
  pa_pool a = pa_pool other /\
  PoolAllocator_neq a other = false.
Proof.
  intros Heq Hn Hp Hne.
  assert (Hneq : PoolAllocator_neq a other = false)
    by (unfold PoolAllocator_neq; now rewrite Heq).
  unfold PoolAllocator_eq in Heq. apply Nat.eqb_eq in Heq.
  split; [|now split].
  unfold bind. rewrite (@PoolAllocator_allocate_at_available a n ps p Hn Hp Hne).
  unfold PoolAllocator_deallocate_at, at_pool. rewrite <- Heq.
  rewrite nth_error_set_pool_same with (q := p) by assumption.
  unfold PoolAllocator_deallocate, MemoryPool_deallocate, modify. simpl.
  rewrite push_back_pop_back by assumption.
  rewrite set_pool_twice, set_blocks_twice, set_blocks_same.
  now rewrite set_pool_same.
Qed.

Lemma PoolAllocator_equal_interchangeable_witness :
  (q <- PoolAllocator_allocate_at (PoolAllocator_ctor 1) 3 ;;
   PoolAllocator_deallocate_at (PoolAllocator_ctor 1) q 2)
    [mkPool [16%N] 4 1; mkPool [34; 39]%N 4 2]
    = Ok tt [mkPool [16%N] 4 1; mkPool [34; 39]%N 4 2] /\
  pa_pool (PoolAllocator_ctor 1) = pa_pool (PoolAllocator_ctor 1) /\
  PoolAllocator_neq (PoolAllocator_ctor 1) (PoolAllocator_ctor 1) = false.
Proof.
  apply (@PoolAllocator_equal_interchangeable (PoolAllocator_ctor 1)
           (PoolAllocator_ctor 1) 3 2
           [mkPool [16%N] 4 1; mkPool [34; 39]%N 4 2]
           (mkPool [34; 39]%N 4 2)).
  - reflexivity.
  - discriminate.
  - reflexivity.
  - simpl. discriminate.
Defined.

(** X16. Allocators that compare unequal refer to different pools: a
    block taken through one and given back through the other, whose pool
    has room for it in its reserved buffer, leaves the first pool one
    block short and adds that block to the free list of the second; the
    other pools are as they were. *)
Theorem PoolAllocator_unequal_migrates (a other : PoolAllocator)
    (n m : N) (ps : Pools) (p1 p2 : MemoryPool) :
  PoolAllocator_neq a other = true ->
  n <> 0%N ->
  nth_error ps (pa_pool a) = Some p1 ->
  nth_error ps (pa_pool other) = Some p2 ->
  blocks p1 <> [] ->
  within_reserved 1 p2 ->
  exists ps',
    (q <- PoolAllocator_allocate_at a n ;;
     PoolAllocator_deallocate_at other q m) ps = Ok tt ps' /\
    nth_error ps' (pa_pool a) = Some (set_blocks (pop_back (blocks p1)) p1) /\
    nth_error ps' (pa_pool other)
      = Some (set_blocks (push_back (back (blocks p1)) (blocks p2)) p2) /\
    forall r, r <> pa_pool a -> r <> pa_pool other ->
              nth_error ps' r = nth_error ps r.
Proof.
  intros Hneq Hn Hp1 Hp2 Hne _.
  unfold PoolAllocator_neq, PoolAllocator_eq in Hneq.
  apply negb_true_iff, Nat.eqb_neq in Hneq.
  unfold bind. rewrite (@PoolAllocator_allocate_at_available a n ps p1 Hn Hp1 Hne).
  unfold PoolAllocator_deallocate_at, at_pool.
  rewrite nth_error_set_pool_other by assumption. rewrite Hp2.
  unfold PoolAllocator_deallocate, MemoryPool_deallocate, modify.
  eexists. split; [reflexivity|]. split; [|split].
  - rewrite nth_error_set_pool_other by congruence.
    now apply nth_error_set_pool_same with (q := p1).
  - apply nth_error_set_pool_same with (q := p2).
    now rewrite nth_error_set_pool_other by assumption.
  - intros r Hr1 Hr2.
    rewrite !nth_error_set_pool_other by congruence. reflexivity.
Qed.

Lemma PoolAllocator_unequal_migrates_witness :
  exists ps',
    (q <- PoolAllocator_allocate_at (PoolAllocator_ctor 1) 1 ;;
     PoolAllocator_deallocate_at (PoolAllocator_ctor 0) q 1)
      [mkPool [16%N] 4 2; mkPool [34; 39]%N 4 2] = Ok tt ps' /\
    nth_error ps' (pa_pool (PoolAllocator_ctor 1))
      = Some (set_blocks (pop_back (blocks (mkPool [34; 39]%N 4 2)))
                (mkPool [34; 39]%N 4 2)) /\
    nth_error ps' (pa_pool (PoolAllocator_ctor 0))
      = Some (set_blocks
                (push_back (back (blocks (mkPool [34; 39]%N 4 2)))
                   (blocks (mkPool [16%N] 4 2)))
                (mkPool [16%N] 4 2)) /\
    forall r, r <> pa_pool (PoolAllocator_ctor 1) ->
              r <> pa_pool (PoolAllocator_ctor 0) ->
              nth_error ps' r
                = nth_error [mkPool [16%N] 4 2; mkPool [34; 39]%N 4 2] r.
Proof.
  apply (@PoolAllocator_unequal_migrates (PoolAllocator_ctor 1)
           (PoolAllocator_ctor 0) 1 1
           [mkPool [16%N] 4 2; mkPool [34; 39]%N 4 2]
           (mkPool [34; 39]%N 4 2) (mkPool [16%N] 4 2)).
  - reflexivity.
  - discriminate.
  - reflexivity.
  - reflexivity.
  - simpl. discriminate.
  - unfold within_reserved, available. simpl. lia.
Defined.

(** ** Creating and giving up objects *)

Lemma granted_last (n : nat) :
  forall s : list bool, last (granted (S n) s) false = nth n s true.
Proof.
  induction n as [|n IH]; intro s.
  - simpl. now destruct s as [|[|] s].
  - change (granted (S (S n)) s)
      with (match s with false :: _ => false | _ => true end
            :: granted (S n) (tl s)).
    change (last (?x :: granted (S n) (tl s)) false)
      with (last (granted (S n) (tl s)) false).
    rewrite IH. destruct s; [now destruct n|reflexivity].
Qed.

Lemma last_map_nonnull (l : list ptr) :
  l <> [] -> last (map nonnull l) false = nonnull (last l nullptr).
Proof.
  induction l as [|x l IH]; intro Hne; [contradiction|].
  destruct l as [|y l]; [reflexivity|].
  change (last (map nonnull (x :: y :: l)) false)
    with (last (map nonnull (y :: l)) false).
  change (last (x :: y :: l) nullptr) with (last (y :: l) nullptr).
  apply IH. discriminate.
Qed.

Lemma vector_reserve_script (cap : N) (h h1 : Heap) :
  cap <> 0%N ->
  vector_reserve cap h = Ok tt h1 ->
  script h1 = tl (script h).
Proof.
  intros Hcap. unfold vector_reserve.
  rewrite (proj2 (N.eqb_neq _ _) Hcap).
  destruct (N.ltb vector_max_size cap); [discriminate|].
  unfold bind, operator_new, ret.
  destruct (refused h); [discriminate|].
  intro H. now injection H as <-.
Qed.

Lemma back_In (l : list ptr) : l <> [] -> In (back l) l.
Proof.
  intro Hne. rewrite <- (push_back_pop_back Hne) at 2.
  unfold push_back. apply in_or_app. right. now left.
Qed.

Lemma In_firstn (n : nat) (l : list ptr) (x : ptr) :
  In x (firstn n l) -> In x l.
Proof.
  intro H. rewrite <- (firstn_skipn n l). apply in_or_app. now left.
Qed.

Section TypedWrapperUse.

Variables Store Args : Type.
Variable T : Class Store Args.

Lemma make_unique_pool_empty (args : Args) (w : World Store) :
  blocks (w_pool w) = [] ->
  make_unique_pool T args w = Throw bad_alloc w.
Proof.
  intro Hempty. unfold make_unique_pool, bind, on_pool, zoom.
  rewrite allocate_exhausted by assumption.
  now rewrite World_eta.
Qed.

(** X17. When the last block request of a construction was refused, the
    pool is built all the same with a null pointer as the last entry of
    its free list, and the first [make_unique_pool] on it constructs the
    object at the null address: undefined behaviour, whatever the type. *)
Theorem make_unique_pool_after_refusal (bs cap : N) (h h' : Heap)
    (pool : MemoryPool) (args : Args) (s : Store) (t : list event) :
  cap <> 0%N ->
  nth (N.to_nat cap) (script h) true = false ->
  MemoryPool_ctor bs cap h = Ok pool h' ->
  back (blocks pool) = nullptr /\
  make_unique_pool T args (mkWorld pool s t) = Undefined.
Proof.
  intros Hcap Hrefused Hctor.
  destruct (vector_reserve_cases cap h)
    as [(e & h1 & Hres & _)|(h1 & Hres & _)].
  { rewrite (@MemoryPool_ctor_reserve_throws bs cap h h1 e Hres) in Hctor.
    discriminate. }
  rewrite (@MemoryPool_ctor_after_reserve bs cap h h1 Hres) in Hctor.
  destruct (MemoryPool_fill_spec (N.to_nat cap) bs [] h1)
    as (new & h2 & Hfill & Hlen & Hmap & _).
  rewrite Hfill in Hctor. simpl in Hctor. injection Hctor as <- <-.
  assert (Hne : new <> []).
  { intros ->. simpl in Hlen. lia. }
  assert (Hback : back new = nullptr).
  { apply nonnull_false. unfold back.
    rewrite <- last_map_nonnull by assumption.
    rewrite Hmap, (@vector_reserve_script cap h h1 Hcap Hres).
    destruct (N.to_nat cap) as [|n] eqn:En; [lia|].
    rewrite granted_last.
    rewrite <- Hrefused. now destruct (script h). }
  split; [exact Hback|].
  rewrite make_unique_pool_available by assumption.
  simpl. now rewrite Hback.
Qed.

(** X18. For a type whose constructor and destructor do not use the
    pool: an object made by [PoolManager::create] and then given up
    leaves the pool as it was before the object was made, and the next
    object is made in the same block. *)
Theorem create_release_restores (args : Args) (w w1 : World Store)
    (u : unique_ptr Store) :
  pool_neutral T ->
  dtor_pool_neutral T ->
  PoolManager_create T args w = Ok u w1 ->
  exists u' w2,
    unique_ptr_reset u w1 = Ok u' w2 /\
    available (w_pool w1) + 1 = available (w_pool w) /\
    w_pool w2 = w_pool w /\
    forall (args2 : Args) (u2 : unique_ptr Store) (w3 : World Store),
      PoolManager_create T args2 w2 = Ok u2 w3 -> up_get u2 = up_get u.
Proof.
  unfold PoolManager_create. intros Hctor Hdtor Hmake.
  destruct (@make_unique_pool_Ok_inv Store Args T args w w1 u Hmake)
    as (Hnn & Hdel & Hne & Hget).
  assert (Hpool1 : w_pool w1 = set_blocks (pop_back (blocks (w_pool w))) (w_pool w)).
  { rewrite make_unique_pool_available in Hmake by assumption.
    cbv zeta in Hmake.
    destruct (N.eqb (back (blocks (w_pool w))) nullptr); [discriminate|].
    specialize (Hctor args (back (blocks (w_pool w)))
                  (set_blocks (pop_back (blocks (w_pool w))) (w_pool w))
                  (w_store w)).
    destruct (construct T args _ _) as [a q|e q|]; try discriminate.
    injection Hmake as _ <-. exact Hctor. }
  unfold unique_ptr_reset at 1.
  rewrite (proj2 (N.eqb_neq _ _) Hnn).
  unfold bind. rewrite Hdel, deleter_spec. unfold ret.
  eexists _, _. split; [reflexivity|].
  assert (Hpool2 :
    set_blocks
      (push_back (up_get u)
         (blocks (fst (destroy T (up_get u) (w_pool w1, w_store w1)))))
      (fst (destroy T (up_get u) (w_pool w1, w_store w1))) = w_pool w).
  { rewrite Hdtor, Hpool1, Hget. simpl.
    rewrite push_back_pop_back by assumption.
    unfold set_blocks. simpl. now destruct (w_pool w). }
  split.
  { rewrite Hpool1. unfold available. simpl.
    rewrite <- (push_back_pop_back Hne) at 2.
    unfold push_back. rewrite length_app. simpl. lia. }
  split; [exact Hpool2|].
  intros args2 u2 w3 Hmake2.
  destruct (@make_unique_pool_Ok_inv Store Args T args2 _ w3 u2 Hmake2)
    as (_ & _ & _ & Hget2).
  simpl in Hget2. now rewrite back_push_back in Hget2.
Qed.

(** X19. Every construction that throws costs the pool a block. For a
    type whose constructor throws on these arguments without using the
    pool, [k] attempts at [make_unique_pool], each exception caught,
    take the last [k] blocks out of the free list for good; after as
    many attempts as there were blocks the pool is exhausted, with no
    object alive. *)
Theorem make_attempts_drain (args : Args) (k : nat) :
  forall w : World Store,
    pool_neutral T ->
    (forall b p s, exists e q, construct T args b (p, s) = Throw e q) ->
    ~ In nullptr (blocks (w_pool w)) ->
    k <= available (w_pool w) ->
    exists w',
      make_attempts T args k w = Ok tt w' /\
      blocks (w_pool w') = firstn (available (w_pool w) - k) (blocks (w_pool w)) /\
      (k = available (w_pool w) ->
       make_unique_pool T args w' = Throw bad_alloc w').
Proof.
  induction k as [|k IH]; intros w Hneutral Hthrows Hnn Hk.
  - exists w. split; [reflexivity|].
    unfold available in *. rewrite Nat.sub_0_r, firstn_all.
    split; [reflexivity|].
    intro Hzero. symmetry in Hzero. apply length_zero_iff_nil in Hzero.
    now apply make_unique_pool_empty.
  - assert (Hne : blocks (w_pool w) <> []).
    { unfold available in Hk. intro Hnil. rewrite Hnil in Hk. simpl in Hk. lia. }
    assert (Hback : back (blocks (w_pool w)) <> nullptr).
    { intro Hnull. apply Hnn. rewrite <- Hnull.
      now apply back_In. }
    simpl make_attempts. unfold bind, try_catch.
    rewrite make_unique_pool_available by assumption. cbv zeta.
    rewrite (proj2 (N.eqb_neq _ _) Hback).
    pose proof (Hneutral args (back (blocks (w_pool w)))
                  (set_blocks (pop_back (blocks (w_pool w))) (w_pool w))
                  (w_store w)) as Hfst.
    destruct (Hthrows (back (blocks (w_pool w)))
                (set_blocks (pop_back (blocks (w_pool w))) (w_pool w))
                (w_store w)) as (e & q & Hq).
    rewrite Hq in Hfst |- *.
    assert (Hpop : pop_back (blocks (w_pool w))
                   = firstn (available (w_pool w) - 1) (blocks (w_pool w))).
    { unfold pop_back, available. rewrite removelast_firstn_len.
      f_equal. lia. }
    destruct (IH (mkWorld (fst q) (snd q)
                    (w_trace w ++ [EvConstruct (back (blocks (w_pool w)))])))
      as (w' & Hrun & Hblocks & Hlast); trivial.
    { simpl. rewrite Hfst. simpl. rewrite Hpop.
      intro Hin. apply Hnn. eapply In_firstn. exact Hin. }
    { simpl. rewrite Hfst. unfold available in *. simpl. rewrite Hpop.
      rewrite length_firstn. lia. }
    exists w'. split; [exact Hrun|].
    simpl in Hblocks, Hlast. rewrite Hfst in Hblocks, Hlast.
    unfold available in *. simpl in Hblocks, Hlast.
    rewrite Hpop in Hblocks, Hlast.
    rewrite length_firstn in Hblocks, Hlast.
    split.
    + rewrite Hblocks, firstn_firstn. f_equal. lia.
    + intro Hall. apply Hlast. lia.
Qed.

End TypedWrapperUse.

Lemma make_unique_pool_after_refusal_witness :
  back (blocks (mkPool [18; 0]%N 4 2)) = nullptr /\
  make_unique_pool int_class 42%Z (mkWorld (mkPool [18; 0]%N 4 2) [] [])
    = Undefined.
Proof.
  apply (@make_unique_pool_after_refusal _ _ int_class 4 2
           (mkHeap [] 1 [true; true; false]) (mkHeap [18%N] 23 [])
           (mkPool [18; 0]%N 4 2) 42%Z [] []).
  - discriminate.
  - reflexivity.
  - reflexivity.
Defined.

Lemma create_release_restores_witness :
  exists u' w2,
    unique_ptr_reset (mk_unique_ptr 32%N (deleter int_class))
        (mkWorld (mkPool [16%N] 4 2) [(32%N, 42%Z)] [EvConstruct 32%N])
      = Ok u' w2 /\
    available (mkPool [16%N] 4 2) + 1 = available (mkPool [16; 32]%N 4 2) /\
    w_pool w2 = mkPool [16; 32]%N 4 2 /\
    forall (args2 : Z) (u2 : unique_ptr (list (ptr * Z)))
           (w3 : World (list (ptr * Z))),
      PoolManager_create int_class args2 w2 = Ok u2 w3 -> up_get u2 = 32%N.
Proof.
  apply (@create_release_restores _ _ int_class 42%Z
           (mkWorld (mkPool [16; 32]%N 4 2) [] [])
           (mkWorld (mkPool [16%N] 4 2) [(32%N, 42%Z)] [EvConstruct 32%N])
           (mk_unique_ptr 32%N (deleter int_class))).
  - intros args b p s. simpl.
    destruct (N.leb sizeof_int (blockSize p)); [reflexivity|exact I].
  - intros b p s. reflexivity.
  - reflexivity.
Defined.

Lemma make_attempts_drain_witness :
  exists w',
    make_attempts throwing_class tt 2 (mkWorld (mkPool [16; 32]%N 4 2) tt [])
      = Ok tt w' /\
    blocks (w_pool w')
      = firstn (available (mkPool [16; 32]%N 4 2) - 2) [16; 32]%N /\
    (2 = available (mkPool [16; 32]%N 4 2) ->
     make_unique_pool throwing_class tt w' = Throw bad_alloc w').
Proof.
  apply (@make_attempts_drain _ _ throwing_class tt 2
           (mkWorld (mkPool [16; 32]%N 4 2) tt [])).
  - intros args b p s. reflexivity.
  - intros b p s. eexists _, _. reflexivity.
  - simpl. intuition discriminate.
  - unfold available. simpl. lia.
Defined.

(** ** Blocks as regions of memory *)

(** The blocks one construction obtains from [malloc] are regions of
    [blockSize] bytes that do not meet. *)
Lemma MemoryPool_fill_separated (n : nat) (size : N) :
  forall (l new : list ptr) (h h' : Heap),
    MemoryPool_fill n size l h = (l ++ new, h') ->
    forall a b, In a new -> In b new -> a <> nullptr -> b <> nullptr ->
                a <> b -> (a + size <= b)%N \/ (b + size <= a)%N.
Proof.
  induction n as [|n IH]; intros l new h h' Hfill a b Ha Hb Hna Hnb Hab.
  - simpl in Hfill. injection Hfill as Hl _.
    rewrite <- (app_nil_r l) in Hl at 1. apply app_inv_head in Hl.
    subst new. contradiction.
  - simpl in Hfill.
    destruct (malloc_cases size h) as [[_ Hm]|[_ Hm]]; rewrite Hm in Hfill.
    + destruct (MemoryPool_fill_spec n size (push_back nullptr l)
                  (mkHeap (live h) (brk h) (tl (script h))))
        as (new1 & h1 & Hfill1 & _).
      rewrite Hfill1 in Hfill. injection Hfill as Hl _.
      unfold push_back in Hl. rewrite <- app_assoc in Hl.
      apply app_inv_head in Hl. subst new. simpl in Ha, Hb.
      destruct Ha as [Ha|Ha]; [congruence|].
      destruct Hb as [Hb|Hb]; [congruence|].
      eapply IH; eassumption.
    + destruct (MemoryPool_fill_spec n size (push_back (Npos (brk h)) l)
                  (mkHeap (Npos (brk h) :: live h)
                          (brk h + N.succ_pos size) (tl (script h))))
        as (new1 & h1 & Hfill1 & _ & _ & Hrange & _).
      rewrite Hfill1 in Hfill. injection Hfill as Hl _.
      unfold push_back in Hl. rewrite <- app_assoc in Hl.
      apply app_inv_head in Hl. subst new. simpl in Ha, Hb, Hrange.
      rewrite Forall_forall in Hrange.
      assert (Hnext : forall c, In c new1 -> c <> nullptr ->
                                (Npos (brk h) + size < c)%N).
      { intros c Hc Hnc. specialize (Hrange c Hc Hnc).
        pose proof (N.succ_pos_spec size) as Hsucc.
        change (Npos (brk h + N.succ_pos size))
          with (Npos (brk h) + Npos (N.succ_pos size))%N in Hrange.
        lia. }
      destruct Ha as [<-|Ha], Hb as [<-|Hb].
      * congruence.
      * left. specialize (Hnext b Hb Hnb). lia.
      * right. specialize (Hnext a Ha Hna). lia.
      * eapply IH; eassumption.
Qed.

(** So the free list of a pool built while nothing was refused is
    separated. *)
Lemma MemoryPool_ctor_separated (bs cap : N) (h h' : Heap) (pool : MemoryPool) :
  MemoryPool_ctor bs cap h = Ok pool h' ->
  ~ In nullptr (blocks pool) ->
  separated (blockSize pool) (blocks pool).
Proof.
  intros Hctor Hnn.
  destruct (vector_reserve_cases cap h)
    as [(e & h1 & Hres & _)|(h1 & Hres & _)].
  { rewrite (@MemoryPool_ctor_reserve_throws bs cap h h1 e Hres) in Hctor.
    discriminate. }
  rewrite (@MemoryPool_ctor_after_reserve bs cap h h1 Hres) in Hctor.
  destruct (MemoryPool_fill (N.to_nat cap) bs [] h1) as [new h2] eqn:Hfill.
  simpl in Hctor. injection Hctor as <- <-. simpl in *.
  intros a b Ha Hb Hab.
  apply (@MemoryPool_fill_separated (N.to_nat cap) bs [] new h1 h2 Hfill);
    trivial; intros ->; contradiction.
Qed.

(** ** Objects of type int *)

Lemma create_int_available (v : Z) (w : World (list (ptr * Z))) :
  blocks (w_pool w) <> [] ->
  back (blocks (w_pool w)) <> nullptr ->
  (sizeof_int <= blockSize (w_pool w))%N ->
  make_unique_pool int_class v w =
    Ok (mk_unique_ptr (back (blocks (w_pool w))) (deleter int_class))
       (mkWorld (set_blocks (pop_back (blocks (w_pool w))) (w_pool w))
          ((back (blocks (w_pool w)), v) :: w_store w)
          (w_trace w ++ [EvConstruct (back (blocks (w_pool w)))])).
Proof.
  intros Hne Hnn Hsize.
  rewrite make_unique_pool_available by assumption. cbv zeta.
  rewrite (proj2 (N.eqb_neq _ _) Hnn). simpl.
  now rewrite (proj2 (N.leb_le _ _) Hsize).
Qed.

Lemma read_int_written (b : ptr) (v : Z) (s : list (ptr * Z)) :
  read_int b ((b, v) :: s) = Some v.
Proof. simpl. now rewrite N.eqb_refl. Qed.

Lemma read_int_apart (a b : ptr) (v : Z) (s : list (ptr * Z)) :
  (a + sizeof_int <= b)%N \/ (b + sizeof_int <= a)%N ->
  read_int a ((b, v) :: s) = read_int a s.
Proof.
  intro Hapart. simpl.
  assert (Hne : N.eqb b a = false).
  { apply N.eqb_neq. unfold sizeof_int in Hapart. lia. }
  assert (Hov : overlap b a = false).
  { unfold overlap. apply andb_false_iff.
    destruct Hapart as [H|H]; [left|right]; apply N.ltb_ge; exact H. }
  now rewrite Hne, Hov.
Qed.

(** X20. [create<int>(v)] on a pool whose blocks have room for an [int]
    and whose last free entry is a block: the handle owns that block, the
    [int] read through the handle is [v], every [int] that shares no byte
    with the new object reads as before, and the pool has one block
    fewer. *)
Theorem create_int_reads_back (v : Z) (w : World (list (ptr * Z))) :
  blocks (w_pool w) <> [] ->
  back (blocks (w_pool w)) <> nullptr ->
  (sizeof_int <= blockSize (w_pool w))%N ->
  exists u w1,
    PoolManager_create int_class v w = Ok u w1 /\
    up_get u = back (blocks (w_pool w)) /\
    read_int (up_get u) (w_store w1) = Some v /\
    (forall a,
        (a + sizeof_int <= up_get u)%N \/ (up_get u + sizeof_int <= a)%N ->
        read_int a (w_store w1) = read_int a (w_store w)) /\
    available (w_pool w1) + 1 = available (w_pool w).
Proof.
  intros Hne Hnn Hsize. unfold PoolManager_create.
  rewrite create_int_available by assumption.
  eexists _, _. split; [reflexivity|].
  cbn [up_get w_store w_pool].
  split; [reflexivity|]. split; [apply read_int_written|]. split.
  - intros a Ha. now apply read_int_apart.
  - unfold available. simpl.
    rewrite <- (push_back_pop_back Hne) at 2.
    unfold push_back. rewrite length_app. simpl. lia.
Qed.

Lemma create_int_reads_back_witness :
  exists u w1,
    PoolManager_create int_class 42%Z
        (mkWorld (mkPool [16; 32]%N 4 2) [(48%N, 7%Z)] []) = Ok u w1 /\
    up_get u = back (blocks (mkPool [16; 32]%N 4 2)) /\
    read_int (up_get u) (w_store w1) = Some 42%Z /\
    (forall a,
        (a + sizeof_int <= up_get u)%N \/ (up_get u + sizeof_int <= a)%N ->
        read_int a (w_store w1) = read_int a [(48%N, 7%Z)]) /\
    available (w_pool w1) + 1 = available (mkPool [16; 32]%N 4 2).
Proof.
  apply (@create_int_reads_back 42%Z
           (mkWorld (mkPool [16; 32]%N 4 2) [(48%N, 7%Z)] [])).
  - simpl. discriminate.
  - simpl. discriminate.
  - vm_compute. discriminate.
Defined.

(** X21. A [PoolManager] built with blocks that have room for an [int]
    and a capacity of at least one, on an allocator that refuses nothing,
    can make an [int] at once: [create] returns a handle on a live block
    of the allocator, not null, holding the value given, and the pool is
    left with [capacity - 1] blocks. *)
Theorem PoolManager_create_first (bs cap : N) (h : Heap) (v : Z)
    (s : list (ptr * Z)) (t : list event) :
  forallb (fun answer => answer) (script h) = true ->
  (sizeof_int <= bs)%N ->
  cap <> 0%N ->
  (cap <= vector_max_size)%N ->
  exists pool h' u w1,
    PoolManager_ctor bs cap h = Ok pool h' /\
    PoolManager_create int_class v (mkWorld pool s t) = Ok u w1 /\
    up_get u <> nullptr /\
    In (up_get u) (live h') /\
    read_int (up_get u) (w_store w1) = Some v /\
    available (w_pool w1) + 1 = N.to_nat cap.
Proof.
  intros Hs Hsize Hcap Hmax. unfold PoolManager_ctor, PoolManager_create.
  destruct (@MemoryPool_ctor_all_granted bs cap h Hs Hmax)
    as (pool & h' & Hctor & Hlen & Hnn & _ & Hlive & Hbs & _).
  assert (Hne : blocks pool <> []).
  { intro Hnil. rewrite Hnil in Hlen. simpl in Hlen. lia. }
  assert (Hin : In (back (blocks pool)) (blocks pool)) by now apply back_In.
  assert (Hback : back (blocks pool) <> nullptr).
  { intro Hnull. apply Hnn. now rewrite <- Hnull. }
  exists pool, h'. eexists _, _.
  split; [exact Hctor|].
  split; [apply create_int_available; simpl; congruence|].
  cbn [up_get w_store w_pool].
  split; [exact Hback|].
  split; [rewrite Hlive; apply in_or_app; left; now apply -> in_rev|].
  split; [apply read_int_written|].
  unfold available. simpl. rewrite <- Hlen.
  rewrite <- (push_back_pop_back Hne) at 2.
  unfold push_back. rewrite length_app. simpl. lia.
Qed.

Lemma PoolManager_create_first_witness :
  exists pool h' u w1,
    PoolManager_ctor 4 10 (mkHeap [] 1 []) = Ok pool h' /\
    PoolManager_create int_class 42%Z (mkWorld pool [] []) = Ok u w1 /\
    up_get u <> nullptr /\
    In (up_get u) (live h') /\
    read_int (up_get u) (w_store w1) = Some 42%Z /\
    available (w_pool w1) + 1 = N.to_nat 10.
Proof.
  apply (@PoolManager_create_first 4 10 (mkHeap [] 1 []) 42%Z [] []).
  - reflexivity.
  - vm_compute. discriminate.
  - discriminate.
  - vm_compute. discriminate.
Defined.

Lemma push_back_nonempty (x : ptr) (l : list ptr) : push_back x l <> [].
Proof. unfold push_back. now destruct l. Qed.

Lemma back_pop_back_distinct (l : list ptr) :
  NoDup l -> 2 <= length l ->
  pop_back l <> [] /\ back (pop_back l) <> back l /\
  In (back l) l /\ In (back (pop_back l)) l.
Proof.
  intros Hnd Hlen.
  assert (Hne : l <> []) by (intros ->; simpl in Hlen; lia).
  assert (Hne' : pop_back l <> []).
  { intro Hnil. rewrite <- (push_back_pop_back Hne) in Hlen.
    rewrite Hnil in Hlen. simpl in Hlen. lia. }
  split; [exact Hne'|].
  assert (Hin' : In (back (pop_back l)) (pop_back l)) by now apply back_In.
  split; [|split; [now apply back_In|]].
  - rewrite <- (push_back_pop_back Hne) in Hnd. unfold push_back in Hnd.
    intro Heq. apply (@NoDup_app_disjoint (pop_back l) [back l] _ Hnd Hin').
    simpl. left. symmetry. exact Heq.
  - rewrite <- (push_back_pop_back Hne) at 2. unfold push_back.
    apply in_or_app. now left.
Qed.

(** X22. Two [int]s created one after the other, on a pool with at least
    two free blocks, the blocks being pairwise distinct regions that do
    not meet and have room for an [int]: the two objects live in
    different blocks and share no byte, and each handle reads back the
    value its object was given. The second construction does not touch
    the first object. *)
Theorem create_two_ints (v1 v2 : Z) (w : World (list (ptr * Z))) :
  NoDup (blocks (w_pool w)) ->
  ~ In nullptr (blocks (w_pool w)) ->
  2 <= available (w_pool w) ->
  (sizeof_int <= blockSize (w_pool w))%N ->
  separated (blockSize (w_pool w)) (blocks (w_pool w)) ->
  exists u1 u2 w2,
    (first <- PoolManager_create int_class v1 ;;
     second <- PoolManager_create int_class v2 ;;
     ret (first, second)) w = Ok (u1, u2) w2 /\
    up_get u1 <> up_get u2 /\
    ((up_get u1 + sizeof_int <= up_get u2)%N \/
     (up_get u2 + sizeof_int <= up_get u1)%N) /\
    read_int (up_get u1) (w_store w2) = Some v1 /\
    read_int (up_get u2) (w_store w2) = Some v2.
Proof.
  unfold available, PoolManager_create. intros Hnd Hnn Hlen Hsize Hsep.
  destruct (back_pop_back_distinct Hnd Hlen) as (Hne' & Hdiff & Hin1 & Hin2).
  assert (Hne : blocks (w_pool w) <> []).
  { intro Hnil. rewrite Hnil in Hlen. simpl in Hlen. lia. }
  assert (Hb1 : back (blocks (w_pool w)) <> nullptr).
  { intro Hnull. apply Hnn. now rewrite <- Hnull. }
  assert (Hb2 : back (pop_back (blocks (w_pool w))) <> nullptr).
  { intro Hnull. apply Hnn. now rewrite <- Hnull. }
  assert (Hapart :
    (back (blocks (w_pool w)) + sizeof_int
       <= back (pop_back (blocks (w_pool w))))%N \/
    (back (pop_back (blocks (w_pool w))) + sizeof_int
       <= back (blocks (w_pool w)))%N).
  { destruct (Hsep _ _ Hin1 Hin2 (not_eq_sym Hdiff)) as [H|H]; [left|right]; lia. }
  unfold bind at 1. rewrite create_int_available by assumption.
  unfold bind. rewrite create_int_available by assumption.
  unfold ret. eexists _, _, _. split; [reflexivity|].
  cbn [up_get w_store w_pool set_blocks blocks].
  split; [congruence|]. split; [exact Hapart|].
  split; [|apply read_int_written].
  rewrite read_int_apart by exact Hapart. apply read_int_written.
Qed.

Lemma create_two_ints_witness :
  exists u1 u2 w2,
    (first <- PoolManager_create int_class 42%Z ;;
     second <- PoolManager_create int_class 100%Z ;;
     ret (first, second)) (mkWorld (mkPool [16; 32]%N 4 2) [] [])
      = Ok (u1, u2) w2 /\
    up_get u1 <> up_get u2 /\
    ((up_get u1 + sizeof_int <= up_get u2)%N \/
     (up_get u2 + sizeof_int <= up_get u1)%N) /\
    read_int (up_get u1) (w_store w2) = Some 42%Z /\
    read_int (up_get u2) (w_store w2) = Some 100%Z.
Proof.
  apply (@create_two_ints 42%Z 100%Z (mkWorld (mkPool [16; 32]%N 4 2) [] [])).
  - simpl. repeat constructor; simpl; intuition discriminate.
  - simpl. intuition discriminate.
  - unfold available. simpl. lia.
  - vm_compute. discriminate.
  - intros a b Ha Hb Hab. simpl in Ha, Hb.
    destruct Ha as [<-|[<-|[]]], Hb as [<-|[<-|[]]];
      try congruence; simpl; lia.
Defined.

(** X23. After a block has been given back twice (the reserved buffer
    having room for both entries), two [int]s created one after the
    other, in blocks with room for an [int], are made in that same block:
    both handles hold its address, and the first handle reads the value
    of the second object. *)
Theorem create_after_double_deallocate (b : ptr) (v1 v2 : Z)
    (w : World (list (ptr * Z))) :
  b <> nullptr ->
  within_reserved 2 (w_pool w) ->
  (sizeof_int <= blockSize (w_pool w))%N ->
  exists u1 u2 w2,
    (on_pool (MemoryPool_deallocate b) ;;
     on_pool (MemoryPool_deallocate b) ;;
     first <- PoolManager_create int_class v1 ;;
     second <- PoolManager_create int_class v2 ;;
     ret (first, second)) w = Ok (u1, u2) w2 /\
    up_get u1 = b /\ up_get u2 = b /\
    read_int (up_get u1) (w_store w2) = Some v2 /\
    w_pool w2 = w_pool w.
Proof.
  intros Hnn _ Hsize. unfold PoolManager_create.
  unfold bind at 1, on_pool at 1, zoom, MemoryPool_deallocate at 1, modify.
  unfold bind at 1, on_pool at 1, zoom, MemoryPool_deallocate at 1, modify.
  simpl w_pool. simpl w_store. simpl w_trace.
  unfold bind at 1. rewrite create_int_available; simpl.
  - rewrite back_push_back, pop_back_push_back.
    unfold bind. rewrite create_int_available; simpl.
    + rewrite back_push_back, pop_back_push_back.
      unfold ret. eexists _, _, _. split; [reflexivity|].
      cbn [up_get w_store w_pool].
      split; [reflexivity|]. split; [reflexivity|].
      split; [apply read_int_written|].
      unfold set_blocks. simpl. now destruct (w_pool w).
    + apply push_back_nonempty.
    + now rewrite back_push_back.
    + exact Hsize.
  - apply push_back_nonempty.
  - now rewrite back_push_back.
  - exact Hsize.
Qed.

Lemma create_after_double_deallocate_witness :
  exists u1 u2 w2,
    (on_pool (MemoryPool_deallocate 32%N) ;;
     on_pool (MemoryPool_deallocate 32%N) ;;
     first <- PoolManager_create int_class 42%Z ;;
     second <- PoolManager_create int_class 100%Z ;;
     ret (first, second)) (mkWorld (mkPool [16%N] 4 3) [] [])
      = Ok (u1, u2) w2 /\
    up_get u1 = 32%N /\ up_get u2 = 32%N /\
    read_int (up_get u1) (w_store w2) = Some 100%Z /\
    w_pool w2 = w_pool (mkWorld (mkPool [16%N] 4 3) (@nil (ptr * Z)) []).
Proof.
  apply (@create_after_double_deallocate 32%N 42%Z 100%Z
           (mkWorld (mkPool [16%N] 4 3) [] [])).
  - discriminate.
  - unfold within_reserved, available. simpl. lia.
  - vm_compute. discriminate.
Defined.
